(** * DFA equivalence checker (afdd_gui_equivalencia.py, backend part)

    A shallow embedding of the class [DFA] (methods [is_complete],
    [complete_with_sink], [accepts]) and of the functions
    [reconstruct_word] and [are_equivalent], followed by the properties
    the specification states about them.

    Modelling conventions.
    - Python [str] is [string]; states and alphabet symbols are strings, a
      word is a string, and [for ch in word] walks over its characters,
      each character being the one-character string [String c ""].
    - Python sets are [gset], the transition dictionary is a [gmap] keyed by
      (state, symbol).
    - Methods that mutate [self] return the updated automaton.  The two
      automatons given to [are_equivalent] are separate values: they share
      neither their state set nor their dictionary ([parse_dfa] builds fresh
      ones for every automaton).
    - The order in which Python walks over a set is not fixed by the
      language.  The loops of [complete_with_sink] build the same dictionary
      whatever the order, so they walk over [elements].  The breadth-first
      search of [are_equivalent] may return different witnesses for
      different orders, so the order used for [union_alphabet] is a
      parameter of the model and the theorems hold for each of them. *)

From Stdlib Require Import Ascii.
From stdpp Require Import gmap strings list sorting.

#[local] Set Warnings "-clear-no-such-hyp".

(** ** The automaton *)

Record DFA := mkDFA {
  name : string;
  states : gset string;
  alphabet : gset string;
  start_state : string;
  accept_states : gset string;
  transitions : gmap (string * string) string
}.

Definition set_alphabet (d : DFA) (sigma : gset string) : DFA :=
  mkDFA (name d) (states d) sigma (start_state d) (accept_states d)
        (transitions d).

(** [is_complete]: the nested loops return [False] at the first missing key. *)
Definition is_complete (d : DFA) : bool :=
  forallb (fun q =>
    forallb (fun a => bool_decide (is_Some (transitions d !! (q, a))))
            (elements (alphabet d)))
    (elements (states d)).

Definition sink : string := "SINK_STATE".

(** One pass of [for a in self.alphabet: if (q, a) not in self.transitions:
    self.transitions[(q, a)] = sink]. *)
Definition fill_row (q : string) (t : gmap (string * string) string)
    (syms : list string) : gmap (string * string) string :=
  foldl (fun t a => match t !! (q, a) with
                    | Some _ => t
                    | None => <[(q, a) := sink]> t
                    end) t syms.

Definition fill_rows (qs syms : list string)
    (t : gmap (string * string) string) : gmap (string * string) string :=
  foldl (fun t q => fill_row q t syms) t qs.

Definition complete_with_sink (d : DFA) : DFA :=
  if is_complete d then d
  else
    let states1 :=
      if decide (sink ∈ states d) then states d else {[sink]} ∪ states d in
    let syms := elements (alphabet d) in
    let t1 := fill_row sink (transitions d) syms in
    let t2 := fill_rows (elements states1) syms t1 in
    mkDFA (name d) states1 (alphabet d) (start_state d) (accept_states d) t2.

(** [accepts]: the loop over the characters of [word]. *)
Fixpoint accepts_from (d : DFA) (current : string) (word : string) : bool :=
  match word with
  | EmptyString => bool_decide (current ∈ accept_states d)
  | String ch rest =>
      match transitions d !! (current, String ch EmptyString) with
      | None => false
      | Some next => accepts_from d next rest
      end
  end.

Definition accepts (d : DFA) (word : string) : bool :=
  accepts_from d (start_state d) word.

(** ** Witness reconstruction and the product search *)

Abbreviation spair := (string * string)%type.

(** The [while current != start] loop.  It follows the back-pointers of
    [parent]; in the source it does not return when they form a cycle that
    avoids [start].  The model gives it fuel and returns [None] when the
    fuel runs out.  A walk that repeats no key runs the loop body at most
    [size parent] times, which is the fuel given by [reconstruct_word]; on
    the dictionary built by [are_equivalent] the walk always returns
    (lemma [reconstruct_word_spec]). *)
Fixpoint reconstruct_loop (fuel : nat) (parent : gmap spair (spair * string))
    (start current : spair) (path : list string) : option (list string) :=
  match fuel with
  | O => None
  | S fuel' =>
      if decide (current = start) then Some path
      else match parent !! current with
           | None => Some path
           | Some (prev, symbol) =>
               reconstruct_loop fuel' parent start prev (path ++ [symbol])
           end
  end.

Definition reconstruct_word (parent : gmap spair (spair * string))
    (start end_ : spair) : option string :=
  path ← reconstruct_loop (S (size parent)) parent start end_ [];
  Some (String.concat "" (reverse path)).

(** State of the [while queue] loop.  [enqueued] is not a variable of the
    source: it records every pair passed to [queue.append] (and the start
    pair the deque is created with), in order. *)
Record bfs_state := mkBfs {
  queue : list spair;
  visited : gset spair;
  parent : gmap spair (spair * string);
  enqueued : list spair
}.

(** Body of [for a in union_alphabet] for the dequeued pair [cur]. *)
Definition explore (d1 d2 : DFA) (cur : spair) (st : bfs_state) (a : string)
    : bfs_state :=
  match transitions d1 !! (cur.1, a), transitions d2 !! (cur.2, a) with
  | Some next1, Some next2 =>
      let pair := (next1, next2) in
      if decide (pair ∈ visited st) then st
      else mkBfs (queue st ++ [pair]) ({[pair]} ∪ visited st)
                 (<[pair := (cur, a)]> (parent st)) (enqueued st ++ [pair])
  | _, _ => st
  end.

Definition disagree (d1 d2 : DFA) (p : spair) : bool :=
  xorb (bool_decide (p.1 ∈ accept_states d1))
       (bool_decide (p.2 ∈ accept_states d2)).

(** The [while queue] loop; [None] when the fuel runs out or the
    reconstruction does not return. *)
Fixpoint bfs_loop (fuel : nat) (order : list string) (d1 d2 : DFA)
    (start_pair : spair) (st : bfs_state)
    : option ((bool * option string) * bfs_state) :=
  match fuel with
  | O => None
  | S fuel' =>
      match queue st with
      | [] => Some ((true, None), st)
      | cur :: rest =>
          let st1 := mkBfs rest (visited st) (parent st) (enqueued st) in
          if disagree d1 d2 cur then
            word ← reconstruct_word (parent st) start_pair cur;
            Some ((false, Some word), st1)
          else
            bfs_loop fuel' order d1 d2 start_pair
                     (foldl (explore d1 d2 cur) st1 order)
      end
  end.

(** States a run of either automaton can be in: the start state and the
    targets of its transitions. *)
Definition range (d : DFA) : gset string :=
  {[start_state d]} ∪ map_img (transitions d).

(** Lines 77-103 of the source on two automatons already completed.  The
    loop dequeues each pair at most once, so [size (range d1) * size (range
    d2)] iterations and the final test of the empty deque are enough fuel,
    for any two automatons (lemma [product_bfs_total]). *)
Definition product_bfs (order : list string) (d1 d2 : DFA)
    : option ((bool * option string) * bfs_state) :=
  let start_pair := (start_state d1, start_state d2) in
  bfs_loop (S (size (range d1) * size (range d2))) order d1 d2 start_pair
           (mkBfs [start_pair] {[start_pair]} ∅ [start_pair]).

(** Lines 71-75: both automatons get the union alphabet and are completed. *)
Definition prepare (dfa1 dfa2 : DFA) : DFA * DFA :=
  let union_alphabet := alphabet dfa1 ∪ alphabet dfa2 in
  (complete_with_sink (set_alphabet dfa1 union_alphabet),
   complete_with_sink (set_alphabet dfa2 union_alphabet)).

(** [are_equivalent]: the returned tuple, and the two automatons as the
    call leaves them.  [order] is the order in which [union_alphabet] is
    walked. *)
Definition are_equivalent (order : list string) (dfa1 dfa2 : DFA)
    : option (bool * option string) * (DFA * DFA) :=
  let '(d1, d2) := prepare dfa1 dfa2 in
  (fst <$> product_bfs order d1 d2, (d1, d2)).

(** ** Vocabulary of the specification *)

(** Section 3 of the specification: the invariants of a valid automaton. *)
Definition valid (d : DFA) : Prop :=
  start_state d ∈ states d ∧
  accept_states d ⊆ states d ∧
  map_Forall (fun k q' => k.1 ∈ states d ∧ k.2 ∈ alphabet d ∧ q' ∈ states d)
             (transitions d).

(** The characters of a word, as the keys [accepts] looks up. *)
Fixpoint symbols (w : string) : list string :=
  match w with
  | EmptyString => []
  | String ch rest => String ch EmptyString :: symbols rest
  end.

Definition word_over (sigma : gset string) (w : string) : Prop :=
  Forall (fun a => a ∈ sigma) (symbols w).

(** The state reached from [q] along a list of symbols, if every
    transition on the way exists. *)
Fixpoint follow (t : gmap (string * string) string) (q : string)
    (syms : list string) : option string :=
  match syms with
  | [] => Some q
  | a :: rest => match t !! (q, a) with
                 | None => None
                 | Some q' => follow t q' rest
                 end
  end.

(** Both automatons run in lockstep. *)
Definition follow2 (d1 d2 : DFA) (p : spair) (syms : list string)
    : option spair :=
  match follow (transitions d1) p.1 syms, follow (transitions d2) p.2 syms with
  | Some q1, Some q2 => Some (q1, q2)
  | _, _ => None
  end.

Definition total (d : DFA) : Prop :=
  ∀ q a, q ∈ states d → a ∈ alphabet d → is_Some (transitions d !! (q, a)).

(** Every symbol is one character long. *)
Definition single_chars (sigma : gset string) : Prop :=
  set_Forall (fun a => String.length a = 1) sigma.

(** [order] lists the symbols of [sigma]. *)
Definition walks (order : list string) (sigma : gset string) : Prop :=
  list_to_set order = sigma.

(** The sink label is unused, or it already names a dead state: not
    accepting and never left. *)
Definition sink_dead (d : DFA) : Prop :=
  (sink ∉ accept_states d) ∧
  map_Forall (fun k q' => k.1 = sink → q' = sink) (transitions d).

#[global] Instance valid_dec d : Decision (valid d).
Proof. unfold valid. apply _. Defined.

#[global] Instance word_over_dec sigma w : Decision (word_over sigma w).
Proof. unfold word_over. apply _. Defined.

#[global] Instance single_chars_dec sigma : Decision (single_chars sigma).
Proof. unfold single_chars. apply _. Defined.

#[global] Instance walks_dec order sigma : Decision (walks order sigma).
Proof. unfold walks. apply _. Defined.

#[global] Instance sink_dead_dec d : Decision (sink_dead d).
Proof. unfold sink_dead. apply _. Defined.

(** ** Example automatons *)

(** Scenario 2 of the specification: the words over 0 and 1 that end in 1,
    and the same automaton with the transition on 0 from [q0] redirected. *)
Definition ends_in_one : DFA :=
  mkDFA "A" {["q0"; "q1"]} {["0"; "1"]} "q0" {["q1"]}
    (<[("q0", "0") := "q0"]> (<[("q0", "1") := "q1"]>
     (<[("q1", "0") := "q0"]> (<[("q1", "1") := "q1"]> ∅)))).

Definition ends_in_one_bug : DFA :=
  mkDFA "B" {["q0"; "q1"]} {["0"; "1"]} "q0" {["q1"]}
    (<[("q0", "0") := "q1"]> (<[("q0", "1") := "q1"]>
     (<[("q1", "0") := "q0"]> (<[("q1", "1") := "q1"]> ∅)))).

(** Scenario 1: one accepting state and no transition. *)
Definition lone_state : DFA :=
  mkDFA "A" {["q0"]} {["0"; "1"]} "q0" {["q0"]} ∅.

(** An automaton with no accepting state. *)
Definition rejects_all (sigma : gset string) : DFA :=
  mkDFA "B" {["q0"]} sigma "q0" ∅ ∅.

(** A state of the automaton carries the label the completion uses for its
    sink, and it is accepting. *)
Definition named_sink : DFA :=
  mkDFA "A" {["q0"; "SINK_STATE"]} {["a"]} "q0" {["SINK_STATE"]} ∅.

(** The symbols are tokens of more than one character. *)
Definition token_ab : DFA :=
  mkDFA "A" {["q0"; "q1"]} {["ab"]} "q0" {["q1"]}
    (<[("q0", "ab") := "q1"]> ∅).

Definition token_abc : DFA :=
  mkDFA "A" {["q0"; "q1"; "q2"; "qX"]} {["abc"; "a"]} "q0" {["qX"; "q2"]}
    (<[("q0", "abc") := "qX"]> (<[("q0", "a") := "q1"]>
     (<[("q1", "a") := "q2"]> ∅))).

(** A state labelled like the sink that is accepting and leads on to a
    rejecting state, against the automaton that accepts every word. *)
Definition accepts_all : DFA :=
  mkDFA "A" {["q0"]} {["a"]} "q0" {["q0"]} (<[("q0", "a") := "q0"]> ∅).

Definition sink_then_reject : DFA :=
  mkDFA "B" {["q0"; "SINK_STATE"; "q2"]} {["a"]} "q0" {["q0"; "SINK_STATE"]}
    (<[("SINK_STATE", "a") := "q2"]> (<[("q2", "a") := "q2"]> ∅)).

(** ** The walk of [reconstruct_word], as a relation

    [walk parent start cur keys path]: from [cur] the loop stops after
    reading the back-pointers of the pairs [keys], having appended the
    symbols [path]; it stops on reaching [start] or a pair without
    back-pointer. *)

Inductive walk (parent : gmap spair (spair * string)) (start : spair)
    : spair → list spair → list string → Prop :=
  | walk_start : walk parent start start [] []
  | walk_break cur :
      cur ≠ start → parent !! cur = None → walk parent start cur [] []
  | walk_step cur prev symbol keys path :
      cur ≠ start → parent !! cur = Some (prev, symbol) →
      walk parent start prev keys path →
      walk parent start cur (cur :: keys) (symbol :: path).

(** ** Reading an automaton from the form ([parse_dfa])

    The five text fields of a panel are the input.  Characters are code
    points below 256; on these [is_space] is Python's [str.isspace], which
    [str.strip] uses, and [is_linebreak] lists the boundaries of
    [str.splitlines].  The text of the error messages is not modelled,
    only which check failed and the values the message is built from. *)

Definition is_space (c : Ascii.ascii) : bool :=
  match c with
  | "009" | "010" | "011" | "012" | "013"
  | "028" | "029" | "030" | "031" | " " | "133" | "160" => true
  | _ => false
  end%char.

Definition is_linebreak (c : Ascii.ascii) : bool :=
  match c with
  | "010" | "011" | "012" | "013" | "028" | "029" | "030" | "133" => true
  | _ => false
  end%char.

Fixpoint lstrip (s : string) : string :=
  match s with
  | EmptyString => EmptyString
  | String c rest => if is_space c then lstrip rest else s
  end.

Fixpoint rstrip (s : string) : string :=
  match s with
  | EmptyString => EmptyString
  | String c rest =>
      match rstrip rest with
      | EmptyString => if is_space c then EmptyString else String c EmptyString
      | r => String c r
      end
  end.

(** [s.strip()] *)
Definition strip (s : string) : string := rstrip (lstrip s).

(** Puts [c] in front of the first piece. *)
Definition cons_piece (c : Ascii.ascii) (pieces : list string) : list string :=
  match pieces with
  | [] => [String c EmptyString]
  | p :: ps => String c p :: ps
  end.

(** [s.split(",")] *)
Fixpoint split_comma (s : string) : list string :=
  match s with
  | EmptyString => [EmptyString]
  | String c rest =>
      if Ascii.eqb c ","%char then EmptyString :: split_comma rest
      else cons_piece c (split_comma rest)
  end.

(** [s.split("->")]: the separators are found from left to right. *)
Fixpoint split_arrow (s : string) : list string :=
  match s with
  | EmptyString => [EmptyString]
  | String c rest =>
      match rest with
      | String c' rest' =>
          if Ascii.eqb c "-"%char && Ascii.eqb c' ">"%char
          then EmptyString :: split_arrow rest'
          else cons_piece c (split_arrow rest)
      | EmptyString => cons_piece c (split_arrow rest)
      end
  end.

(** ["->" in s] *)
Fixpoint contains_arrow (s : string) : bool :=
  match s with
  | EmptyString => false
  | String c rest =>
      match rest with
      | String c' _ =>
          Ascii.eqb c "-"%char && Ascii.eqb c' ">"%char || contains_arrow rest
      | EmptyString => false
      end
  end.

(** [s.splitlines()]: a carriage return followed by a line feed is one
    boundary, and no empty line is reported after the last boundary. *)
Fixpoint splitlines (s : string) : list string :=
  match s with
  | EmptyString => []
  | String c rest =>
      if is_linebreak c then
        match rest with
        | String c' rest' =>
            if Ascii.eqb c "013"%char && Ascii.eqb c' "010"%char
            then EmptyString :: splitlines rest'
            else EmptyString :: splitlines rest
        | EmptyString => EmptyString :: splitlines rest
        end
      else cons_piece c (splitlines rest)
  end.

(** [{x.strip() for x in s.split(",") if x.strip()}] *)
Definition fields (s : string) : gset string :=
  list_to_set (filter (fun x => x ≠ EmptyString) (strip <$> split_comma s)).

(** The dictionary returned by [get_data]. *)
Record panel_data := mkPanel {
  p_states : string;
  p_alphabet : string;
  p_start : string;
  p_accept : string;
  p_trans : string
}.

(** The [ValueError]s of [parse_dfa].  [UnpackError] is the one Python
    raises when [split] does not give exactly two pieces; it passes through
    [except ValueError as ve: raise ve]. *)
Inductive parse_error :=
  | MissingFields
  | UnknownStart (start : string)
  | UnknownAccept
  | UnknownState (line : nat)
  | UnknownSymbol (ch : string) (line : nat)
  | UnpackError
  | SyntaxError (line : nat) (text : string).

(** The body of the [try] for the stripped, non-empty line number [i]
    (counted from 0): the key and the target the line defines. *)
Definition read_line (sts sigma : gset string) (i : nat) (line : string)
    : parse_error + (spair * string) :=
  if negb (contains_arrow line) then inl (SyntaxError (S i) line)
  else
    match split_arrow line with
    | [lhs; rhs] =>
        match split_comma lhs with
        | [q; ch] =>
            let q := strip q in
            let ch := strip ch in
            let right := strip rhs in
            if bool_decide (q ∉ sts) || bool_decide (right ∉ sts)
            then inl (UnknownState (S i))
            else if bool_decide (ch ∉ sigma) then inl (UnknownSymbol ch (S i))
            else inr ((q, ch), right)
        | _ => inl UnpackError
        end
    | _ => inl UnpackError
    end.

(** The [for i, line in enumerate(...)] loop from line number [i] on; the
    first error ends it. *)
Fixpoint parse_lines (sts sigma : gset string) (i : nat) (lines : list string)
    (t : gmap (string * string) string)
    : parse_error + gmap (string * string) string :=
  match lines with
  | [] => inr t
  | line :: rest =>
      let line := strip line in
      if decide (line = EmptyString) then parse_lines sts sigma (S i) rest t
      else match read_line sts sigma i line with
           | inl e => inl e
           | inr (k, v) => parse_lines sts sigma (S i) rest (<[k := v]> t)
           end
  end.

Definition parse_dfa (data : panel_data) (nm : string) : parse_error + DFA :=
  let s_str := strip (p_states data) in
  let a_str := strip (p_alphabet data) in
  let start := strip (p_start data) in
  let acc_str := strip (p_accept data) in
  let trans_str := strip (p_trans data) in
  if bool_decide (s_str = EmptyString ∨ a_str = EmptyString ∨
                  start = EmptyString)
  then inl MissingFields
  else
    let sts := fields s_str in
    let sigma := fields a_str in
    let accept := fields acc_str in
    if bool_decide (start ∉ sts) then inl (UnknownStart start)
    else if bool_decide (¬ accept ⊆ sts) then inl UnknownAccept
    else
      match (if decide (trans_str = EmptyString) then inr ∅
             else parse_lines sts sigma 0 (splitlines trans_str) ∅) with
      | inl e => inl e
      | inr t =>
          inr (complete_with_sink (mkDFA nm sts sigma start accept t))
      end.

(** The placeholder texts of the form, and a form with blanks around the
    labels and a transition given twice. *)
Definition placeholder_panel : panel_data :=
  mkPanel "q0, q1, q2" "0, 1" "q0" "q2" "q0,0->q1
q0,1->q0".

Definition untidy_panel : panel_data :=
  mkPanel " q0 ,q1,, " "0 , 1" " q0" "q1 " "
  q0 , 0 -> q1

q0,0->q0
q1,1 ->q1 ".

(** Closed, decidable statements about the example automatons are settled
    by evaluation. *)
Ltac by_evaluation := apply (bool_decide_unpack _); vm_compute; exact I.

(** ** Invariant of the search

    The proofs attach to every enqueued pair the list of symbols that led
    to it.  [log] lists the enqueued pairs in order with these paths:
    [gdone] are the pairs already expanded, [h] is the pair being expanded,
    [proc] the symbols already tried for it, and [gq] the deque. *)

Abbreviation plog := (list (spair * list string)).

Record inv (d1 d2 : DFA) (order : list string) (log gdone : plog)
    (h : spair) (sh proc : list string) (gq : plog) (st : bfs_state)
    : Prop := mk_inv {
  inv_split : log = gdone ++ (h, sh) :: gq;
  inv_queue : queue st = gq.*1;
  inv_log : enqueued st = log.*1;
  inv_nodup : NoDup (enqueued st);
  inv_visited : ∀ x, x ∈ visited st ↔ x ∈ enqueued st;
  inv_start : ((start_state d1, start_state d2), []) ∈ log;
  inv_root : parent st !! (start_state d1, start_state d2) = None;
  inv_path : ∀ x sx, (x, sx) ∈ log →
    follow2 d1 d2 (start_state d1, start_state d2) sx = Some x ∧
    Forall (fun a => a ∈ order) sx ∧
    length sx < length log;
  inv_parent : ∀ x sx, (x, sx) ∈ log →
    (x = (start_state d1, start_state d2) ∧ sx = []) ∨
    (∃ y a sy, parent st !! x = Some (y, a) ∧ sx = sy ++ [a] ∧
               (y, sy) ∈ log);
  inv_size : S (size (parent st)) = length log;
  inv_dom : ∀ x, is_Some (parent st !! x) → x ∈ visited st;
  inv_done_le : ∀ y sy, (y, sy) ∈ gdone → length sy ≤ length sh;
  inv_queue_ge : ∀ y sy, (y, sy) ∈ gq →
    length sh ≤ length sy ∧ length sy ≤ length sh + 1;
  inv_sorted : StronglySorted (fun p q => length p.2 ≤ length q.2) gq;
  inv_closed : ∀ y sy a n1 n2,
    ((y, sy) ∈ gdone ∧ a ∈ order) ∨ ((y, sy) = (h, sh) ∧ a ∈ proc) →
    transitions d1 !! (y.1, a) = Some n1 →
    transitions d2 !! (y.2, a) = Some n2 →
    ∃ sz, ((n1, n2), sz) ∈ log ∧ length sz ≤ length sy + 1;
  inv_agree : ∀ y sy, (y, sy) ∈ gdone ++ [(h, sh)] →
    disagree d1 d2 y = false
}.

(** What a finished search has established. *)
Definition post (d1 d2 : DFA) (order : list string)
    (r : bool * option string) (st : bfs_state) : Prop :=
  let s0 := (start_state d1, start_state d2) in
  NoDup (enqueued st) ∧
  (∀ x, x ∈ enqueued st →
        ∃ sx, Forall (fun a => a ∈ order) sx ∧ follow2 d1 d2 s0 sx = Some x) ∧
  ((r = (true, None) ∧
    ∀ sx x, Forall (fun a => a ∈ order) sx → follow2 d1 d2 s0 sx = Some x →
            disagree d1 d2 x = false) ∨
   (∃ sx x, r = (false, Some (String.concat "" sx)) ∧
      Forall (fun a => a ∈ order) sx ∧
      follow2 d1 d2 s0 sx = Some x ∧
      disagree d1 d2 x = true ∧
      ∀ sx' x', Forall (fun a => a ∈ order) sx' → length sx' < length sx →
                follow2 d1 d2 s0 sx' = Some x' → disagree d1 d2 x' = false)).

(** ** Completion *)

Section completion.
Implicit Types (d : DFA) (t : gmap (string * string) string).
Implicit Types (q a : string) (syms qs : list string).

Lemma lookup_fill_row syms t q q' a' :
  (fill_row q t syms) !! (q', a') =
    match t !! (q', a') with
    | Some v => Some v
    | None => if decide (q' = q ∧ a' ∈ syms) then Some sink else None
    end.
Proof.
  unfold fill_row. revert t.
  induction syms as [|a syms IH]; intros t; cbn [foldl].
  - destruct (t !! (q', a')); [done|].
    rewrite decide_False; [done|]. intros [_ H]. by apply elem_of_nil in H.
  - rewrite IH. clear IH.
    destruct (t !! (q, a)) as [v|] eqn:Hqa.
    + destruct (t !! (q', a')) eqn:Hq'; [done|].
      apply decide_ext. split; intros [-> H]; (split; [done|]).
      * by right.
      * apply elem_of_cons in H as [->|H]; [congruence|done].
    + destruct (decide ((q, a) = (q', a'))) as [[= <- <-]|Hne].
      * rewrite lookup_insert_eq, Hqa.
        rewrite decide_True; [done|]. split; [done|]. by left.
      * rewrite lookup_insert_ne by done.
        destruct (t !! (q', a')); [done|].
        apply decide_ext. split; intros [-> H]; (split; [done|]).
        -- by right.
        -- apply elem_of_cons in H as [->|H]; [done|done].
Qed.

Lemma lookup_fill_rows qs syms t q' a' :
  (fill_rows qs syms t) !! (q', a') =
    match t !! (q', a') with
    | Some v => Some v
    | None => if decide (q' ∈ qs ∧ a' ∈ syms) then Some sink else None
    end.
Proof.
  unfold fill_rows. revert t.
  induction qs as [|q qs IH]; intros t; cbn [foldl].
  - destruct (t !! (q', a')); [done|].
    rewrite decide_False; [done|]. intros [H _]. by apply elem_of_nil in H.
  - rewrite IH, lookup_fill_row. clear IH.
    destruct (t !! (q', a')); [done|].
    destruct (decide (q' = q ∧ a' ∈ syms)) as [[-> Ha]|Hn].
    + rewrite decide_True; [done|]. split; [by left|done].
    + apply decide_ext. split; intros [Hq Ha]; (split; [|done]).
      * by right.
      * apply elem_of_cons in Hq as [->|Hq]; [|done]. by destruct Hn.
Qed.

Lemma is_complete_true d : is_complete d = true ↔ total d.
Proof.
  unfold is_complete, total. rewrite forallb_forall. split.
  - intros H q a Hq Ha.
    assert (Hq' : In q (elements (states d))).
    { apply list_elem_of_In, elem_of_elements, Hq. }
    specialize (H q Hq'). rewrite forallb_forall in H.
    assert (Ha' : In a (elements (alphabet d))).
    { apply list_elem_of_In, elem_of_elements, Ha. }
    specialize (H a Ha'). by apply bool_decide_eq_true in H.
  - intros H q Hq. apply forallb_forall. intros a Ha.
    apply bool_decide_eq_true, H.
    + by apply elem_of_elements, list_elem_of_In.
    + by apply elem_of_elements, list_elem_of_In.
Qed.

(** The transition dictionary after [complete_with_sink], key by key. *)
Lemma lookup_complete d q a :
  is_complete d = false →
  transitions (complete_with_sink d) !! (q, a) =
    match transitions d !! (q, a) with
    | Some v => Some v
    | None =>
        if decide ((q = sink ∨ q ∈ states d) ∧ a ∈ alphabet d)
        then Some sink else None
    end.
Proof.
  intros Hc. unfold complete_with_sink. rewrite Hc. simpl.
  rewrite lookup_fill_rows, lookup_fill_row.
  destruct (transitions d !! (q, a)) as [v|]; [done|].
  destruct (decide (q = sink ∧ a ∈ elements (alphabet d))) as [[-> Ha]|Hn].
  - rewrite decide_True; [done|]. apply elem_of_elements in Ha. tauto.
  - apply decide_ext. rewrite !elem_of_elements.
    destruct (decide (sink ∈ states d)); set_solver.
Qed.

Lemma states_complete d :
  is_complete d = false →
  states (complete_with_sink d) = {[sink]} ∪ states d.
Proof.
  intros Hc. unfold complete_with_sink. rewrite Hc. simpl.
  case_decide; set_solver.
Qed.

Lemma alphabet_complete d :
  alphabet (complete_with_sink d) = alphabet d.
Proof. unfold complete_with_sink. by destruct (is_complete d). Qed.

Lemma start_complete d :
  start_state (complete_with_sink d) = start_state d.
Proof. unfold complete_with_sink. by destruct (is_complete d). Qed.

Lemma accept_complete d :
  accept_states (complete_with_sink d) = accept_states d.
Proof. unfold complete_with_sink. by destruct (is_complete d). Qed.

Lemma complete_total d : total (complete_with_sink d).
Proof.
  destruct (is_complete d) eqn:Hc.
  - unfold complete_with_sink. rewrite Hc. by apply is_complete_true.
  - intros q a Hq Ha. rewrite lookup_complete by done.
    rewrite states_complete in Hq by done.
    rewrite alphabet_complete in Ha.
    destruct (transitions d !! (q, a)); [by eexists|].
    rewrite decide_True; [by eexists|]. set_solver.
Qed.

Lemma complete_valid d : valid d → valid (complete_with_sink d).
Proof.
  intros (Hs & Ha & Ht).
  destruct (is_complete d) eqn:Hc.
  { unfold complete_with_sink. by rewrite Hc. }
  unfold valid.
  rewrite start_complete, accept_complete, alphabet_complete,
    states_complete by done.
  split_and!; [set_solver|set_solver|].
  intros [q a] q'. rewrite lookup_complete by done. simpl.
  destruct (transitions d !! (q, a)) as [v|] eqn:Hqa.
  - intros [= <-]. apply Ht in Hqa. set_solver.
  - case_decide as H; [|done]. intros [= <-]. set_solver.
Qed.

Lemma complete_sink_dead d : sink_dead d → sink_dead (complete_with_sink d).
Proof.
  intros [Hacc Hloop].
  destruct (is_complete d) eqn:Hc.
  { unfold complete_with_sink. by rewrite Hc. }
  split; [by rewrite accept_complete|].
  intros [q a] q'. rewrite lookup_complete by done. simpl.
  destruct (transitions d !! (q, a)) as [v|] eqn:Hqa.
  - intros [= <-] ->. by apply (Hloop _ _ Hqa).
  - case_decide; [|done]. by intros [= <-].
Qed.

(** Every key the completion adds leads to the sink. *)
Lemma complete_extends d q a v :
  transitions d !! (q, a) = Some v →
  transitions (complete_with_sink d) !! (q, a) = Some v.
Proof.
  intros H. destruct (is_complete d) eqn:Hc.
  - unfold complete_with_sink. by rewrite Hc.
  - by rewrite lookup_complete, H.
Qed.

Lemma complete_added d q a v :
  transitions d !! (q, a) = None →
  transitions (complete_with_sink d) !! (q, a) = Some v → v = sink.
Proof.
  intros H. destruct (is_complete d) eqn:Hc.
  - unfold complete_with_sink. rewrite Hc. congruence.
  - rewrite lookup_complete, H by done. case_decide; congruence.
Qed.

Lemma valid_no_sink_dead d : valid d → sink ∉ states d → sink_dead d.
Proof.
  intros (_ & Ha & Ht) Hs. split; [set_solver|].
  intros [q a] q' Hq Heq. apply Ht in Hq. simpl in *. subst q. tauto.
Qed.

Lemma valid_set_alphabet d sigma :
  valid d → alphabet d ⊆ sigma → valid (set_alphabet d sigma).
Proof.
  intros (Hs & Ha & Ht) Hsub. split_and!; simpl; [done|done|].
  intros [q a] q' H. apply Ht in H. set_solver.
Qed.
End completion.

(** ** Acceptance *)

Section acceptance.
Implicit Types (d : DFA) (t : gmap (string * string) string).
Implicit Types (q : string) (w : string) (syms : list string).

Lemma follow_app t q syms syms' :
  follow t q (syms ++ syms') = follow t q syms ≫= fun q' => follow t q' syms'.
Proof.
  revert q. induction syms as [|a syms IH]; intros q; simpl; [done|].
  destruct (t !! (q, a)); [apply IH|done].
Qed.

Lemma follow_snoc t q syms a q' :
  follow t q (syms ++ [a]) = Some q' ↔
  ∃ p, follow t q syms = Some p ∧ t !! (p, a) = Some q'.
Proof.
  rewrite follow_app. destruct (follow t q syms) as [p|]; simpl.
  - destruct (t !! (p, a)) eqn:Hp; naive_solver.
  - naive_solver.
Qed.

Lemma length_symbols w : length (symbols w) = String.length w.
Proof. induction w as [|c w IH]; simpl; [done|]. by rewrite IH. Qed.

(** [accepts] runs [follow] over the characters and tests the state it
    ends in. *)
Lemma accepts_from_follow d q w :
  accepts_from d q w =
    match follow (transitions d) q (symbols w) with
    | Some q' => bool_decide (q' ∈ accept_states d)
    | None => false
    end.
Proof.
  revert q. induction w as [|c w IH]; intros q; simpl; [done|].
  destruct (transitions d !! (q, String c "")); [apply IH|done].
Qed.

Lemma follow_None_split t q w :
  follow t q (symbols w) = None ↔
  ∃ pre ch rest p, w = pre +:+ String ch rest ∧
    follow t q (symbols pre) = Some p ∧ t !! (p, String ch "") = None.
Proof.
  revert q. induction w as [|c w IH]; intros q; simpl.
  - split; [done|]. intros (pre & ch & rest & p & Hw & _).
    by destruct pre.
  - destruct (t !! (q, String c "")) as [q'|] eqn:Hq.
    + rewrite IH. split.
      * intros (pre & ch & rest & p & -> & Hp & Hn).
        exists (String c pre), ch, rest, p. simpl. by rewrite Hq.
      * intros (pre & ch & rest & p & Hw & Hp & Hn).
        destruct pre as [|c' pre]; simpl in Hp.
        -- change (String c w = String ch rest) in Hw.
           by simplify_eq.
        -- change (String c w = String c' (pre +:+ String ch rest)) in Hw.
           injection Hw as <- ->. rewrite Hq in Hp. eauto 10.
    + split; [|done]. intros _. by exists "", c, w, q.
Qed.

(** Joining one-character symbols and splitting the result into
    characters gives the symbols back. *)
Lemma symbols_concat syms :
  Forall (fun a => String.length a = 1) syms →
  symbols (String.concat "" syms) = syms.
Proof.
  induction 1 as [|a syms Ha _ IH]; [done|].
  destruct a as [|c [|c' a]]; simplify_eq/=.
  destruct syms as [|b syms]; [done|].
  change (symbols (String c (String.concat "" (b :: syms))) =
          String c "" :: b :: syms).
  cbn [symbols]. by rewrite IH.
Qed.

Lemma accepts_from_set_alphabet d sigma q w :
  accepts_from (set_alphabet d sigma) q w = accepts_from d q w.
Proof.
  revert q. induction w as [|c w IH]; intros q; simpl; [done|].
  destruct (transitions d !! (q, String c "")); [apply IH|done].
Qed.

Lemma sink_rejects d w : sink_dead d → accepts_from d sink w = false.
Proof.
  intros [Hacc Hloop]. induction w as [|c w IH]; simpl.
  - by apply bool_decide_eq_false.
  - destruct (transitions d !! (sink, String c "")) as [q|] eqn:Hq; [|done].
    by rewrite (Hloop _ _ Hq eq_refl).
Qed.

Lemma accepts_from_complete d q w :
  sink_dead d →
  accepts_from (complete_with_sink d) q w = accepts_from d q w.
Proof.
  intros Hd. revert q. induction w as [|c w IH]; intros q; simpl.
  - by rewrite accept_complete.
  - destruct (transitions d !! (q, String c "")) as [q'|] eqn:Hq.
    + by rewrite (complete_extends _ _ _ _ Hq).
    + destruct (transitions (complete_with_sink d) !! (q, String c ""))
        as [q'|] eqn:Hq'; [|done].
      apply (complete_added _ _ _ _ Hq) in Hq' as ->.
      by apply sink_rejects, complete_sink_dead.
Qed.

(** On a valid, total automaton a word over the alphabet never meets a
    missing transition. *)
Lemma follow_total d q syms :
  valid d → total d → q ∈ states d →
  Forall (fun a => a ∈ alphabet d) syms →
  ∃ q', follow (transitions d) q syms = Some q' ∧ q' ∈ states d.
Proof.
  intros (_ & _ & Ht) Htot Hq Hs. revert q Hq.
  induction Hs as [|a syms Ha _ IH]; intros q Hq; simpl; [eauto|].
  destruct (Htot q a Hq Ha) as [q' Hq']. rewrite Hq'.
  apply IH. by apply Ht in Hq' as (_ & _ & ?).
Qed.

Lemma follow_range d syms q :
  follow (transitions d) (start_state d) syms = Some q → q ∈ range d.
Proof.
  unfold range. revert q. induction syms as [|a syms IH] using rev_ind;
    intros q; simpl.
  - intros [= <-]. set_solver.
  - rewrite follow_snoc. intros (p & _ & Hp).
    apply elem_of_union_r, elem_of_map_img. eauto.
Qed.

Lemma follow2_nil d1 d2 p : follow2 d1 d2 p [] = Some p.
Proof. by destruct p. Qed.

Lemma follow2_snoc d1 d2 p syms a x :
  follow2 d1 d2 p (syms ++ [a]) = Some x ↔
  ∃ y, follow2 d1 d2 p syms = Some y ∧
       transitions d1 !! (y.1, a) = Some x.1 ∧
       transitions d2 !! (y.2, a) = Some x.2.
Proof.
  unfold follow2. destruct x as [x1 x2]. simpl. split.
  - destruct (follow _ p.1 (syms ++ [a])) as [q1|] eqn:H1; [|done].
    destruct (follow _ p.2 (syms ++ [a])) as [q2|] eqn:H2; [|done].
    intros [= -> ->].
    apply follow_snoc in H1 as (y1 & -> & ?).
    apply follow_snoc in H2 as (y2 & -> & ?).
    by exists (y1, y2).
  - intros ([y1 y2] & Hy & Ha1 & Ha2). simpl in *.
    destruct (follow _ p.1 syms) as [q1|] eqn:H1; [|done].
    destruct (follow _ p.2 syms) as [q2|] eqn:H2; [|done].
    injection Hy as -> ->.
    rewrite !follow_app, H1, H2. simpl. by rewrite Ha1, Ha2.
Qed.
End acceptance.

(** ** The product search *)

Section search.
Variables (d1 d2 : DFA) (order : list string).

Abbreviation s0 := (start_state d1, start_state d2).

Lemma inv_mem_firsts log gdone h sh proc gq st x :
  inv d1 d2 order log gdone h sh proc gq st →
  x ∈ enqueued st ↔ ∃ sx, (x, sx) ∈ log.
Proof.
  intros I. rewrite (inv_log _ _ _ _ _ _ _ _ _ _ I), list_elem_of_fmap.
  split.
  - intros ([y sy] & -> & H). eauto.
  - intros (sx & H). by exists (x, sx).
Qed.

(** The walk back from an enqueued pair returns the path attached to it. *)
Lemma reconstruct_loop_spec log gdone h sh proc gq st n x sx acc :
  inv d1 d2 order log gdone h sh proc gq st →
  (x, sx) ∈ log → length sx ≤ n →
  reconstruct_loop (S n) (parent st) s0 x acc = Some (acc ++ reverse sx).
Proof.
  intros I. revert x sx acc.
  induction n as [|n IH]; intros x sx acc Hx Hlen.
  - destruct sx; [|simpl in Hlen; lia]. simpl.
    destruct (inv_parent _ _ _ _ _ _ _ _ _ _ I _ _ Hx)
      as [[-> _]|(y & a & sy & _ & Hsx & _)].
    + rewrite decide_True by done. by rewrite app_nil_r.
    + by destruct sy.
  - cbn [reconstruct_loop].
    destruct (inv_parent _ _ _ _ _ _ _ _ _ _ I _ _ Hx)
      as [[-> ->]|(y & a & sy & Hp & -> & Hy)].
    + rewrite decide_True by done. by rewrite app_nil_r.
    + destruct (decide (x = s0)) as [->|Hne].
      { by rewrite (inv_root _ _ _ _ _ _ _ _ _ _ I) in Hp. }
      rewrite Hp. rewrite length_app in Hlen. simpl in Hlen.
      change (reconstruct_loop (S n) (parent st) s0 y (acc ++ [a]) =
              Some (acc ++ reverse (sy ++ [a]))).
      rewrite (IH y sy) by (done || lia).
      by rewrite reverse_app, <-app_assoc.
Qed.

Lemma reconstruct_word_spec log gdone h sh proc gq st x sx :
  inv d1 d2 order log gdone h sh proc gq st →
  (x, sx) ∈ log →
  reconstruct_word (parent st) s0 x = Some (String.concat "" sx).
Proof.
  intros I Hx. unfold reconstruct_word.
  rewrite (reconstruct_loop_spec _ _ _ _ _ _ _ _ _ _ _ I Hx).
  - simpl. by rewrite reverse_involutive.
  - destruct (inv_path _ _ _ _ _ _ _ _ _ _ I _ _ Hx) as (_ & _ & Hlt).
    pose proof (inv_size _ _ _ _ _ _ _ _ _ _ I). lia.
Qed.

Lemma inv_head_in log gdone h sh proc gq st :
  inv d1 d2 order log gdone h sh proc gq st → (h, sh) ∈ log.
Proof.
  intros I. rewrite (inv_split _ _ _ _ _ _ _ _ _ _ I).
  apply elem_of_app. right. by left.
Qed.

Lemma inv_path_length log gdone h sh proc gq st z sz :
  inv d1 d2 order log gdone h sh proc gq st →
  (z, sz) ∈ log → length sz ≤ length sh + 1.
Proof.
  intros I. rewrite (inv_split _ _ _ _ _ _ _ _ _ _ I).
  intros [H|[H|H]%elem_of_cons]%elem_of_app.
  - apply (inv_done_le _ _ _ _ _ _ _ _ _ _ I) in H. lia.
  - injection H as -> ->. lia.
  - apply (inv_queue_ge _ _ _ _ _ _ _ _ _ _ I) in H. lia.
Qed.

(** One more symbol is dealt with when its successor pair is in the log
    (or does not exist). *)
Lemma inv_proc_snoc log gdone h sh proc gq st a :
  inv d1 d2 order log gdone h sh proc gq st →
  (∀ n1 n2, transitions d1 !! (h.1, a) = Some n1 →
            transitions d2 !! (h.2, a) = Some n2 →
            ∃ sz, ((n1, n2), sz) ∈ log ∧ length sz ≤ length sh + 1) →
  inv d1 d2 order log gdone h sh (proc ++ [a]) gq st.
Proof.
  intros I Ha. destruct I. constructor; try done.
  intros y sy b n1 n2 [Hy|[Heq Hb]] E1 E2.
  - eapply inv_closed0; eauto.
  - apply elem_of_app in Hb as [Hb|Hb%list_elem_of_singleton].
    + eapply inv_closed0; eauto.
    + injection Heq as -> ->. subst b. eauto.
Qed.

Lemma explore_inv log gdone h sh proc gq st a :
  inv d1 d2 order log gdone h sh proc gq st → a ∈ order →
  ∃ log' gq',
    inv d1 d2 order log' gdone h sh (proc ++ [a]) gq' (explore d1 d2 h st a).
Proof.
  intros I Ha. unfold explore.
  destruct (transitions d1 !! (h.1, a)) as [n1|] eqn:E1;
    [|exists log, gq; apply inv_proc_snoc; [done|congruence] ].
  destruct (transitions d2 !! (h.2, a)) as [n2|] eqn:E2;
    [|exists log, gq; apply inv_proc_snoc; [done|congruence] ].
  cbv zeta. destruct (decide ((n1, n2) ∈ visited st)) as [Hin|Hz].
  { exists log, gq. apply inv_proc_snoc; [done|].
    intros m1 m2 F1 F2. rewrite E1 in F1. rewrite E2 in F2.
    injection F1 as <-. injection F2 as <-.
    apply (inv_visited _ _ _ _ _ _ _ _ _ _ I) in Hin.
    apply (inv_mem_firsts _ _ _ _ _ _ _ _ I) in Hin as [sz Hsz].
    exists sz. split; [done|]. by eapply inv_path_length. }
  pose proof (inv_head_in _ _ _ _ _ _ _ I) as Hh.
  assert (Hzlog : ∀ sz, ((n1, n2), sz) ∉ log).
  { intros sz Hsz. apply Hz, (inv_visited _ _ _ _ _ _ _ _ _ _ I).
    apply (inv_mem_firsts _ _ _ _ _ _ _ _ I). eauto. }
  destruct I as [Hsplit Hq Hlog Hnd Hvis Hstart Hroot Hpath Hpar Hsize
                 Hdom Hdle Hqge Hsorted Hclosed Hagree].
  exists (log ++ [((n1, n2), sh ++ [a])]), (gq ++ [((n1, n2), sh ++ [a])]).
  constructor; simpl.
  - by rewrite Hsplit, <-app_assoc.
  - by rewrite fmap_app, Hq.
  - by rewrite fmap_app, Hlog.
  - apply NoDup_app. split_and!; [done| |apply NoDup_singleton].
    intros x Hx ->%list_elem_of_singleton. by apply Hz, Hvis.
  - intros x. rewrite elem_of_union, elem_of_singleton, elem_of_app,
      list_elem_of_singleton, Hvis. tauto.
  - apply elem_of_app. by left.
  - rewrite lookup_insert_ne; [done|]. intros Heq.
    eapply Hzlog. rewrite Heq. done.
  - intros x sx [Hx|Hx%list_elem_of_singleton]%elem_of_app.
    + destruct (Hpath _ _ Hx) as (? & ? & ?).
      split_and!; [done|done|]. rewrite length_app. lia.
    + injection Hx as -> ->. destruct (Hpath _ _ Hh) as (Hf & Hall & Hl).
      split_and!.
      * apply follow2_snoc. by exists h.
      * apply Forall_app. split; [done|]. by constructor.
      * rewrite !length_app. simpl. lia.
  - intros x sx [Hx|Hx%list_elem_of_singleton]%elem_of_app.
    + destruct (Hpar _ _ Hx) as [?|(y & b & sy & Hp & ? & ?)];
        [by left|right].
      exists y, b, sy. split_and!; [|done|apply elem_of_app; by left].
      rewrite lookup_insert_ne; [done|]. intros <-. by eapply Hzlog.
    + injection Hx as -> ->. right. exists h, a, sh.
      rewrite lookup_insert_eq. split_and!; [done|done|].
      apply elem_of_app. by left.
  - rewrite map_size_insert_None, length_app; [simpl; lia|].
    destruct (parent st !! (n1, n2)) eqn:Hp; [|done].
    exfalso. apply Hz, Hdom. eauto.
  - intros x. rewrite lookup_insert_is_Some.
    intros [<-|[_ H] ]; [set_solver|]. apply Hdom in H. set_solver.
  - done.
  - intros y sy [H|H%list_elem_of_singleton]%elem_of_app;
      [by apply (Hqge y)|].
    injection H as -> ->. rewrite length_app. simpl. lia.
  - apply StronglySorted_app. split_and!; [|done|repeat constructor].
    intros [x1 sx1] x2 H1 ->%list_elem_of_singleton. simpl.
    apply Hqge in H1. rewrite length_app. simpl. lia.
  - intros y sy b m1 m2 [ [Hy Hb]|[Heq Hb] ] F1 F2.
    + destruct (Hclosed y sy b m1 m2) as (sz & ? & ?); [by left|done|done|].
      exists sz. split; [apply elem_of_app; by left|done].
    + apply elem_of_app in Hb as [Hb|Hb%list_elem_of_singleton].
      * destruct (Hclosed y sy b m1 m2) as (sz & ? & ?);
          [by right|done|done|].
        exists sz. split; [apply elem_of_app; by left|done].
      * injection Heq as -> ->. subst b.
        rewrite E1 in F1. rewrite E2 in F2.
        injection F1 as <-. injection F2 as <-.
        exists (sh ++ [a]). split.
        -- apply elem_of_app. right. by apply list_elem_of_singleton.
        -- rewrite length_app. simpl. lia.
  - done.
Qed.

(** The whole [for a in union_alphabet] loop. *)
Lemma expand_inv syms log gdone h sh proc gq st :
  inv d1 d2 order log gdone h sh proc gq st →
  Forall (fun a => a ∈ order) syms →
  ∃ log' gq',
    inv d1 d2 order log' gdone h sh (proc ++ syms) gq'
        (foldl (explore d1 d2 h) st syms).
Proof.
  intros I Hs. revert log proc gq st I.
  induction Hs as [|a syms Ha _ IH]; intros log proc gq st I; simpl.
  - rewrite app_nil_r. eauto.
  - destruct (explore_inv _ _ _ _ _ _ _ _ I Ha) as (log' & gq' & I').
    destruct (IH _ _ _ _ I') as (log'' & gq'' & I'').
    rewrite <-app_assoc in I''. eauto.
Qed.

(** Taking the next pair off the deque. *)
Lemma inv_advance log gdone h sh h' sh' rest st :
  inv d1 d2 order log gdone h sh order ((h', sh') :: rest) st →
  disagree d1 d2 h' = false →
  inv d1 d2 order log (gdone ++ [(h, sh)]) h' sh' [] rest
      (mkBfs rest.*1 (visited st) (parent st) (enqueued st)).
Proof.
  intros I Hh'.
  destruct I as [Hsplit Hq Hlog Hnd Hvis Hstart Hroot Hpath Hpar Hsize
                 Hdom Hdle Hqge Hsorted Hclosed Hagree].
  assert (Hle : length sh ≤ length sh').
  { apply (Hqge h' sh'). by left. }
  apply StronglySorted_inv in Hsorted as [Hsorted Hhd].
  constructor; simpl; try done.
  - by rewrite Hsplit, <-app_assoc.
  - intros y sy [H|H%list_elem_of_singleton]%elem_of_app.
    + apply Hdle in H. lia.
    + injection H as -> ->. lia.
  - intros y sy H. split.
    + rewrite Forall_forall in Hhd. apply (Hhd (y, sy) H).
    + assert ((y, sy) ∈ (h', sh') :: rest) as H' by by right.
      apply Hqge in H'. lia.
  - intros y sy a n1 n2 [ [Hy Ha]|[_ Ha] ];
      [|by apply elem_of_nil in Ha].
    apply elem_of_app in Hy as [Hy|Hy%list_elem_of_singleton].
    + apply Hclosed. by left.
    + apply Hclosed. by right.
  - intros y sy [H|H%list_elem_of_singleton]%elem_of_app.
    + by apply (Hagree y sy).
    + by injection H as -> ->.
Qed.

(** The state after the start pair has been taken off the deque. *)
Lemma inv_init :
  disagree d1 d2 s0 = false →
  inv d1 d2 order [(s0, [])] [] s0 [] [] [] (mkBfs [] {[s0]} ∅ [s0]).
Proof.
  intros Hs. constructor; simpl; try done.
  - apply NoDup_singleton.
  - intros x. by rewrite elem_of_singleton, list_elem_of_singleton.
  - by left.
  - intros x sx H%list_elem_of_singleton. injection H as -> ->.
    split_and!; [apply follow2_nil|constructor|simpl; lia].
  - intros x sx H%list_elem_of_singleton. injection H as -> ->. by left.
  - intros x [v Hv]. by rewrite lookup_empty in Hv.
  - intros y sy H. by apply elem_of_nil in H.
  - intros y sy H. by apply elem_of_nil in H.
  - constructor.
  - intros y sy a n1 n2 [ [H _]|[_ H] ]; by apply elem_of_nil in H.
  - intros y sy H%list_elem_of_singleton. by injection H as -> ->.
Qed.

(** Pairs at fewer steps from the start than anything in the deque are in
    the log, with a path that is not longer. *)
Lemma reach_in_log log gdone h sh gq st N :
  inv d1 d2 order log gdone h sh order gq st →
  (∀ y sy, (y, sy) ∈ gq → N ≤ length sy) →
  ∀ syms x, Forall (fun a => a ∈ order) syms → length syms ≤ N →
    follow2 d1 d2 s0 syms = Some x →
    ∃ sx, (x, sx) ∈ log ∧ length sx ≤ length syms.
Proof.
  intros I HN syms.
  induction syms as [|a syms IH] using rev_ind; intros x Hall Hlen Hx.
  - rewrite follow2_nil in Hx. injection Hx as <-.
    exists []. split; [|done]. apply (inv_start _ _ _ _ _ _ _ _ _ _ I).
  - apply Forall_app in Hall as [Hall Ha].
    rewrite Forall_singleton in Ha.
    rewrite length_app in Hlen. simpl in Hlen.
    apply follow2_snoc in Hx as (y & Hy & F1 & F2).
    destruct (IH y Hall) as (sy & Hsy & Hly); [lia|done|].
    assert (Hex : ∃ sz, ((x.1, x.2), sz) ∈ log ∧ length sz ≤ length sy + 1).
    { apply (inv_closed _ _ _ _ _ _ _ _ _ _ I y sy a); [|done|done].
      pose proof Hsy as Hsy'.
      rewrite (inv_split _ _ _ _ _ _ _ _ _ _ I) in Hsy'.
      apply elem_of_app in Hsy' as [H|[H|H]%elem_of_cons].
      - left. by split.
      - right. by split.
      - apply HN in H. lia. }
    destruct Hex as (sz & Hsz & Hlz). exists sz.
    rewrite length_app. simpl. destruct x. split; [done|lia].
Qed.

Lemma pairs_bound (X Y : gset string) (l : list spair) :
  NoDup l → (∀ x, x ∈ l → x.1 ∈ X ∧ x.2 ∈ Y) →
  length l ≤ size X * size Y.
Proof.
  intros Hnd Hl.
  trans (length (cprod (elements X) (elements Y))).
  - apply submseteq_length, NoDup_submseteq; [done|].
    intros x Hx. apply list_elem_of_cprod.
    rewrite !elem_of_elements. auto.
  - by rewrite list_cprod_list_prod, length_prod.
Qed.

Lemma follow2_range syms x :
  follow2 d1 d2 s0 syms = Some x → x.1 ∈ range d1 ∧ x.2 ∈ range d2.
Proof.
  unfold follow2. simpl.
  destruct (follow _ (start_state d1) syms) as [q1|] eqn:H1; [|done].
  destruct (follow _ (start_state d2) syms) as [q2|] eqn:H2; [|done].
  intros [= <-]. simpl. eauto using follow_range.
Qed.

Lemma inv_log_bound log gdone h sh proc gq st :
  inv d1 d2 order log gdone h sh proc gq st →
  length log ≤ size (range d1) * size (range d2).
Proof.
  intros I.
  rewrite <-(length_fmap fst), <-(inv_log _ _ _ _ _ _ _ _ _ _ I).
  apply pairs_bound; [apply (inv_nodup _ _ _ _ _ _ _ _ _ _ I)|].
  intros x [sx Hx]%(inv_mem_firsts _ _ _ _ _ _ _ _ I).
  apply (inv_path _ _ _ _ _ _ _ _ _ _ I) in Hx as (Hx & _).
  by eapply follow2_range.
Qed.

Lemma inv_enqueued_reach log gdone h sh proc gq st x :
  inv d1 d2 order log gdone h sh proc gq st → x ∈ enqueued st →
  ∃ sx, Forall (fun a => a ∈ order) sx ∧ follow2 d1 d2 s0 sx = Some x.
Proof.
  intros I [sx Hx]%(inv_mem_firsts _ _ _ _ _ _ _ _ I).
  apply (inv_path _ _ _ _ _ _ _ _ _ _ I) in Hx as (Hx & Hall & _). eauto.
Qed.

(** The loop from any state in which a pair has been fully expanded:
    with fuel for the pairs not yet dequeued it returns, and what it
    returns satisfies [post]. *)
Lemma bfs_loop_spec fuel log gdone h sh gq st :
  inv d1 d2 order log gdone h sh order gq st →
  size (range d1) * size (range d2) ≤ fuel + length gdone →
  ∃ r st', bfs_loop fuel order d1 d2 s0 st = Some (r, st') ∧
           post d1 d2 order r st'.
Proof.
  revert log gdone h sh gq st.
  induction fuel as [|fuel IH]; intros log gdone h sh gq st I Hfuel.
  { pose proof (inv_log_bound _ _ _ _ _ _ _ I) as Hb.
    rewrite (inv_split _ _ _ _ _ _ _ _ _ _ I), length_app in Hb.
    simpl in Hb. lia. }
  cbn [bfs_loop]. rewrite (inv_queue _ _ _ _ _ _ _ _ _ _ I).
  destruct gq as [|[h' sh'] rest]; cbn [fmap list_fmap].
  - eexists _, _. split; [done|]. split_and!.
    + apply (inv_nodup _ _ _ _ _ _ _ _ _ _ I).
    + intros x. apply (inv_enqueued_reach _ _ _ _ _ _ _ _ I).
    + left. split; [done|]. intros sx x Hall Hx.
      destruct (reach_in_log _ _ _ _ _ _ (length sx) I) with (syms := sx)
        (x := x) as (sz & Hsz & _); [|done|done|done|].
      { intros y sy H. by apply elem_of_nil in H. }
      rewrite (inv_split _ _ _ _ _ _ _ _ _ _ I) in Hsz.
      by apply (inv_agree _ _ _ _ _ _ _ _ _ _ I x sz).
  - assert (Hh' : (h', sh') ∈ log).
    { rewrite (inv_split _ _ _ _ _ _ _ _ _ _ I).
      apply elem_of_app. right. right. by left. }
    assert (Hge : ∀ y sy, (y, sy) ∈ (h', sh') :: rest →
                          length sh' ≤ length sy).
    { intros y sy [H|H]%elem_of_cons; [by injection H as -> ->|].
      pose proof (inv_sorted _ _ _ _ _ _ _ _ _ _ I) as Hs.
      apply StronglySorted_inv in Hs as [_ Hs].
      rewrite Forall_forall in Hs. apply (Hs (y, sy) H). }
    cbv beta iota zeta. change ((h', sh').1) with h'.
    destruct (disagree d1 d2 h') eqn:Hd.
    + rewrite (reconstruct_word_spec _ _ _ _ _ _ _ _ _ I Hh'). cbn.
      eexists _, _. split; [done|]. split_and!; cbn [enqueued].
      * apply (inv_nodup _ _ _ _ _ _ _ _ _ _ I).
      * intros x. apply (inv_enqueued_reach _ _ _ _ _ _ _ _ I).
      * right. exists sh', h'.
        destruct (inv_path _ _ _ _ _ _ _ _ _ _ I _ _ Hh') as (Hf & Ha & _).
        split_and!; [done|done|done|done|].
        intros sx' x' Hall Hlen Hx'.
        destruct (reach_in_log _ _ _ _ _ _ (length sh') I Hge sx' x')
          as (sz & Hsz & Hlz); [done|lia|done|].
        rewrite (inv_split _ _ _ _ _ _ _ _ _ _ I) in Hsz.
        change (gdone ++ (h, sh) :: (h', sh') :: rest)
          with (gdone ++ [(h, sh)] ++ (h', sh') :: rest) in Hsz.
        rewrite app_assoc in Hsz.
        apply elem_of_app in Hsz as [Hsz|Hsz].
        -- by apply (inv_agree _ _ _ _ _ _ _ _ _ _ I x' sz).
        -- apply Hge in Hsz. lia.
    + pose proof (inv_advance _ _ _ _ _ _ _ _ I Hd) as I1.
      destruct (expand_inv order _ _ _ _ _ _ _ I1) as (log' & gq' & I2).
      { by apply Forall_forall. }
      rewrite app_nil_l in I2.
      apply (IH _ _ _ _ _ _ I2). rewrite length_app. simpl. lia.
Qed.

(** The search returns, and its result satisfies [post]. *)
Lemma product_bfs_spec :
  ∃ r st, product_bfs order d1 d2 = Some (r, st) ∧ post d1 d2 order r st.
Proof.
  unfold product_bfs. cbn [bfs_loop queue visited parent enqueued].
  destruct (disagree d1 d2 s0) eqn:Hd.
  - unfold reconstruct_word. cbn [reconstruct_loop].
    rewrite decide_True by done. cbn.
    eexists _, _. split; [done|]. split_and!; cbn [enqueued].
    + apply NoDup_singleton.
    + intros x ->%list_elem_of_singleton. exists [].
      split; [constructor|apply follow2_nil].
    + right. exists [], s0.
      split_and!; [done|constructor|apply follow2_nil|done|].
      intros sx' x' _ Hlen. simpl in Hlen. lia.
  - destruct (expand_inv order _ _ _ _ _ _ _ (inv_init Hd))
      as (log' & gq' & I2).
    { by apply Forall_forall. }
    rewrite app_nil_l in I2.
    apply (bfs_loop_spec _ _ _ _ _ _ _ I2). simpl. lia.
Qed.

(** The fuel of [product_bfs] never runs out. *)
Lemma product_bfs_total : is_Some (product_bfs order d1 d2).
Proof. destruct product_bfs_spec as (r & st & -> & _). by eexists. Qed.
End search.

(** ** From the search to the languages *)

Section verdict.
Implicit Types (A B d : DFA) (order : list string) (w : string).

Lemma are_equivalent_unfold order A B :
  are_equivalent order A B =
    (fst <$> product_bfs order (prepare A B).1 (prepare A B).2,
     prepare A B).
Proof. unfold are_equivalent. by destruct (prepare A B). Qed.

Lemma are_equivalent_result order A B :
  ∃ r st,
    product_bfs order (prepare A B).1 (prepare A B).2 = Some (r, st) ∧
    (are_equivalent order A B).1 = Some r ∧
    (are_equivalent order A B).2 = prepare A B ∧
    post (prepare A B).1 (prepare A B).2 order r st.
Proof.
  destruct (product_bfs_spec (prepare A B).1 (prepare A B).2 order)
    as (r & st & Hr & Hpost).
  exists r, st. rewrite are_equivalent_unfold. cbn [fst snd].
  by rewrite Hr.
Qed.

Lemma walks_elem order sigma a : walks order sigma → a ∈ order ↔ a ∈ sigma.
Proof. intros <-. by rewrite elem_of_list_to_set. Qed.

Lemma accepts_complete_pre d sigma w :
  sink_dead d →
  accepts (complete_with_sink (set_alphabet d sigma)) w = accepts d w.
Proof.
  intros Hd. unfold accepts. rewrite start_complete. simpl.
  rewrite accepts_from_complete by done.
  apply accepts_from_set_alphabet.
Qed.

Lemma prepared_valid d sigma :
  valid d → alphabet d ⊆ sigma →
  valid (complete_with_sink (set_alphabet d sigma)).
Proof. intros. by apply complete_valid, valid_set_alphabet. Qed.

Lemma range_states d : valid d → range d ⊆ states d.
Proof.
  intros (Hs & _ & Ht) q [->%elem_of_singleton|Hq]%elem_of_union; [done|].
  apply elem_of_map_img in Hq as [k Hk]. by apply Ht in Hk as (_ & _ & ?).
Qed.

(** Acceptance of a word whose run exists in both automatons. *)
Lemma accepts_follow2 d1 d2 w x :
  follow2 d1 d2 (start_state d1, start_state d2) (symbols w) = Some x →
  accepts d1 w = accepts d2 w ↔ disagree d1 d2 x = false.
Proof.
  unfold follow2, accepts, disagree. rewrite !accepts_from_follow. simpl.
  destruct (follow _ (start_state d1) _) as [q1|]; [|done].
  destruct (follow _ (start_state d2) _) as [q2|]; [|done].
  intros [= <-]. simpl.
  destruct (bool_decide (q1 ∈ _)), (bool_decide (q2 ∈ _)); naive_solver.
Qed.

(** On valid, total automatons over one alphabet every word over the
    alphabet has a run in the product. *)
Lemma follow2_total d1 d2 w :
  valid d1 → valid d2 → total d1 → total d2 →
  alphabet d2 = alphabet d1 → word_over (alphabet d1) w →
  ∃ x, follow2 d1 d2 (start_state d1, start_state d2) (symbols w) = Some x.
Proof.
  intros V1 V2 T1 T2 Ha Hw.
  destruct (follow_total d1 (start_state d1) (symbols w))
    as (q1 & H1 & _); [done|done|by destruct V1|done|].
  destruct (follow_total d2 (start_state d2) (symbols w))
    as (q2 & H2 & _); [done|done|by destruct V2|by rewrite Ha|].
  exists (q1, q2). unfold follow2. cbn [fst snd]. by rewrite H1, H2.
Qed.

Lemma path_symbols order sigma sx :
  walks order sigma → single_chars sigma →
  Forall (fun a => a ∈ order) sx →
  symbols (String.concat "" sx) = sx ∧
  word_over sigma (String.concat "" sx).
Proof.
  intros Hw Hs Hall.
  assert (symbols (String.concat "" sx) = sx) as Heq.
  { apply symbols_concat. eapply Forall_impl; [done|].
    intros a Ha. simpl. by apply Hs, (walks_elem order). }
  split; [done|]. unfold word_over. rewrite Heq.
  eapply Forall_impl; [done|]. intros a Ha. by apply (walks_elem order).
Qed.

(** The three facts about the search that the claims rest on, for the
    automatons as [are_equivalent] prepares them. *)
Lemma verdict_sound order A B w :
  walks order (alphabet A ∪ alphabet B) →
  single_chars (alphabet A ∪ alphabet B) →
  (are_equivalent order A B).1 = Some (false, Some w) →
  word_over (alphabet A ∪ alphabet B) w ∧
  accepts (are_equivalent order A B).2.1 w ≠
  accepts (are_equivalent order A B).2.2 w.
Proof.
  intros Hw Hs.
  destruct (are_equivalent_result order A B)
    as (r & st & _ & -> & -> & _ & _ & Hr).
  intros [= ->].
  destruct Hr as [ [? _]|(sx & x & [= ->] & Hall & Hx & Hd & _) ]; [done|].
  destruct (path_symbols _ _ _ Hw Hs Hall) as [Heq Hover].
  split; [done|]. rewrite <-Heq in Hx.
  rewrite (accepts_follow2 _ _ _ _ Hx), Hd. done.
Qed.

Lemma prepared_run order A B w :
  valid A → valid B → word_over (alphabet A ∪ alphabet B) w →
  ∃ x, follow2 (prepare A B).1 (prepare A B).2
         (start_state (prepare A B).1, start_state (prepare A B).2)
         (symbols w) = Some x.
Proof.
  intros VA VB Hover. apply follow2_total.
  - apply prepared_valid; [done|set_solver].
  - apply prepared_valid; [done|set_solver].
  - apply complete_total.
  - apply complete_total.
  - simpl. by rewrite !alphabet_complete.
  - simpl. by rewrite alphabet_complete.
Qed.

Lemma verdict_shortest order A B w w' :
  valid A → valid B →
  walks order (alphabet A ∪ alphabet B) →
  single_chars (alphabet A ∪ alphabet B) →
  (are_equivalent order A B).1 = Some (false, Some w) →
  word_over (alphabet A ∪ alphabet B) w' →
  String.length w' < String.length w →
  accepts (are_equivalent order A B).2.1 w' =
  accepts (are_equivalent order A B).2.2 w'.
Proof.
  intros VA VB Hw Hs.
  destruct (are_equivalent_result order A B)
    as (r & st & _ & -> & -> & _ & _ & Hr).
  intros [= ->] Hover Hlen.
  destruct Hr as [ [? _]|(sx & x & [= ->] & Hall & Hx & Hd & Hmin) ]; [done|].
  destruct (path_symbols _ _ _ Hw Hs Hall) as [Heq _].
  destruct (prepared_run order A B w' VA VB Hover) as [x' Hx'].
  apply (accepts_follow2 _ _ _ _ Hx'), (Hmin (symbols w')); [|  |done].
  - eapply Forall_impl; [apply Hover|]. intros a Ha.
    by apply (walks_elem order (alphabet A ∪ alphabet B)).
  - rewrite length_symbols. rewrite <-Heq. by rewrite length_symbols.
Qed.

Lemma verdict_shape order A B :
  (are_equivalent order A B).1 = Some (true, None) ∨
  ∃ w, (are_equivalent order A B).1 = Some (false, Some w).
Proof.
  destruct (are_equivalent_result order A B)
    as (r & st & _ & -> & _ & _ & _ & [ [-> _]|(sx & x & -> & _) ]); eauto.
Qed.

Lemma verdict_complete order A B :
  valid A → valid B →
  walks order (alphabet A ∪ alphabet B) →
  single_chars (alphabet A ∪ alphabet B) →
  (are_equivalent order A B).1 = Some (true, None) ↔
  ∀ w, word_over (alphabet A ∪ alphabet B) w →
       accepts (are_equivalent order A B).2.1 w =
       accepts (are_equivalent order A B).2.2 w.
Proof.
  intros VA VB Hw Hs. split.
  - destruct (are_equivalent_result order A B)
      as (r & st & _ & -> & -> & _ & _ & Hr).
    intros [= ->] w Hover.
    destruct Hr as [ [_ Hall]|(sx & x & ? & _) ]; [|done].
    destruct (prepared_run order A B w VA VB Hover) as [x Hx].
    apply (accepts_follow2 _ _ _ _ Hx), (Hall (symbols w)); [|done].
    eapply Forall_impl; [apply Hover|]. intros a Ha.
    by apply (walks_elem order (alphabet A ∪ alphabet B)).
  - intros Hsame.
    destruct (verdict_shape order A B) as [?|[w Hr] ]; [done|].
    destruct (verdict_sound order A B w Hw Hs Hr) as [Hover Hne].
    by destruct Hne; apply Hsame.
Qed.

Lemma are_equivalent_pre order A B w :
  sink_dead A → sink_dead B →
  accepts (are_equivalent order A B).2.1 w = accepts A w ∧
  accepts (are_equivalent order A B).2.2 w = accepts B w.
Proof.
  intros HA HB. rewrite are_equivalent_unfold. simpl.
  by rewrite !accepts_complete_pre.
Qed.
End verdict.

(** ** The properties of the specification *)

Lemma no_char_keys_rejects d q c w :
  map_Forall (fun k _ => String.length k.2 ≠ 1) (transitions d) →
  accepts_from d q (String c w) = false.
Proof.
  intros Hk. simpl.
  destruct (transitions d !! (q, String c "")) eqn:Hq; [|done].
  by apply Hk in Hq.
Qed.

Lemma no_char_keys_language d1 d2 :
  map_Forall (fun k _ => String.length k.2 ≠ 1) (transitions d1) →
  map_Forall (fun k _ => String.length k.2 ≠ 1) (transitions d2) →
  accepts d1 "" = accepts d2 "" →
  ∀ w, accepts d1 w = accepts d2 w.
Proof.
  intros H1 H2 He [|c w]; [done|].
  unfold accepts. by rewrite !no_char_keys_rejects.
Qed.

(** C1 (amended).  For valid automatons whose alphabet symbols are all
    single characters, [are_equivalent] returns EQUIVALENT exactly when the
    two automatons, as the call leaves them, accept the same words over the
    union alphabet.  When in addition the label SINK_STATE is, in each
    automaton as passed in, either unused or the name of a dead state, this
    is also exactly when the automatons as passed in accept the same words
    over the union alphabet. *)
Theorem are_equivalent_decides_language order A B :
  valid A → valid B →
  walks order (alphabet A ∪ alphabet B) →
  single_chars (alphabet A ∪ alphabet B) →
  ((are_equivalent order A B).1 = Some (true, None) ↔
   ∀ w, word_over (alphabet A ∪ alphabet B) w →
        accepts (are_equivalent order A B).2.1 w =
        accepts (are_equivalent order A B).2.2 w) ∧
  (sink_dead A → sink_dead B →
   ((are_equivalent order A B).1 = Some (true, None) ↔
    ∀ w, word_over (alphabet A ∪ alphabet B) w →
         accepts A w = accepts B w)).
Proof.
  intros VA VB Hw Hs. split; [by apply verdict_complete|].
  intros DA DB. rewrite verdict_complete by done.
  split; intros H w Hover.
  - destruct (are_equivalent_pre order A B w DA DB) as [<- <-]. by apply H.
  - destruct (are_equivalent_pre order A B w DA DB) as [-> ->]. by apply H.
Qed.

Lemma are_equivalent_decides_language_witness :
  ((are_equivalent ["0"; "1"] lone_state lone_state).1 = Some (true, None) ↔
   ∀ w, word_over (alphabet lone_state ∪ alphabet lone_state) w →
        accepts (are_equivalent ["0"; "1"] lone_state lone_state).2.1 w =
        accepts (are_equivalent ["0"; "1"] lone_state lone_state).2.2 w) ∧
  ((are_equivalent ["0"; "1"] lone_state lone_state).1 = Some (true, None) ↔
   ∀ w, word_over (alphabet lone_state ∪ alphabet lone_state) w →
        accepts lone_state w = accepts lone_state w).
Proof.
  destruct (are_equivalent_decides_language ["0"; "1"] lone_state lone_state)
    as [Hpost Hpre]; [by_evaluation..|].
  split; [exact Hpost|]. apply Hpre; by_evaluation.
Defined.

(** C1 as stated fails.  With the token "ab" as a symbol the verdict is
    NOT-EQUIVALENT although the two automatons accept the same words, before
    and after the call.  With single characters, an accepting state labelled
    SINK_STATE makes the verdict NOT-EQUIVALENT although the automatons
    passed in accept the same words. *)
Lemma are_equivalent_decides_language_counterexample :
  (valid token_ab ∧ valid (rejects_all {["ab"]}) ∧
   walks ["ab"] (alphabet token_ab ∪ alphabet (rejects_all {["ab"]})) ∧
   (are_equivalent ["ab"] token_ab (rejects_all {["ab"]})).1
     = Some (false, Some "ab") ∧
   (∀ w, accepts token_ab w = accepts (rejects_all {["ab"]}) w) ∧
   (∀ w, accepts (are_equivalent ["ab"] token_ab (rejects_all {["ab"]})).2.1 w
       = accepts (are_equivalent ["ab"] token_ab (rejects_all {["ab"]})).2.2 w))
  ∧
  (valid named_sink ∧ valid (rejects_all {["a"]}) ∧
   walks ["a"] (alphabet named_sink ∪ alphabet (rejects_all {["a"]})) ∧
   single_chars (alphabet named_sink ∪ alphabet (rejects_all {["a"]})) ∧
   (are_equivalent ["a"] named_sink (rejects_all {["a"]})).1
     = Some (false, Some "a") ∧
   (∀ w, accepts named_sink w = accepts (rejects_all {["a"]}) w)).
Proof.
  split; split_and!; try by_evaluation.
  - apply no_char_keys_language; by_evaluation.
  - apply no_char_keys_language; by_evaluation.
  - apply no_char_keys_language; by_evaluation.
Qed.

(** C2 (amended).  When all alphabet symbols of two valid automatons are
    single characters and [are_equivalent] returns NOT-EQUIVALENT with
    witness [w], the two automatons as the call leaves them disagree on
    [w]. *)
Theorem witness_distinguishes order A B w :
  valid A → valid B →
  walks order (alphabet A ∪ alphabet B) →
  single_chars (alphabet A ∪ alphabet B) →
  (are_equivalent order A B).1 = Some (false, Some w) →
  accepts (are_equivalent order A B).2.1 w ≠
  accepts (are_equivalent order A B).2.2 w.
Proof. intros _ _ Hw Hs Hr. by apply (verdict_sound order A B w). Qed.

Lemma witness_distinguishes_witness :
  accepts (are_equivalent ["0"; "1"] ends_in_one ends_in_one_bug).2.1 "0" ≠
  accepts (are_equivalent ["0"; "1"] ends_in_one ends_in_one_bug).2.2 "0".
Proof.
  apply (witness_distinguishes ["0"; "1"] ends_in_one ends_in_one_bug "0");
    by_evaluation.
Defined.

(** C2 as stated fails: with the token "ab" as a symbol the witness is "ab",
    which both automatons reject after the call, as [accepts] reads it
    character by character. *)
Lemma witness_distinguishes_counterexample :
  valid token_ab ∧ valid (rejects_all {["ab"]}) ∧
  walks ["ab"] (alphabet token_ab ∪ alphabet (rejects_all {["ab"]})) ∧
  (are_equivalent ["ab"] token_ab (rejects_all {["ab"]})).1
    = Some (false, Some "ab") ∧
  accepts (are_equivalent ["ab"] token_ab (rejects_all {["ab"]})).2.1 "ab" =
  accepts (are_equivalent ["ab"] token_ab (rejects_all {["ab"]})).2.2 "ab".
Proof. by_evaluation. Qed.

(** C3 (amended).  When all alphabet symbols of two valid automatons are
    single characters and [are_equivalent] returns NOT-EQUIVALENT with
    witness [w], the automatons as the call leaves them agree on every
    strictly shorter word over the union alphabet; so do the automatons as
    passed in when SINK_STATE is in each of them unused or a dead state. *)
Theorem witness_is_shortest order A B w w' :
  valid A → valid B →
  walks order (alphabet A ∪ alphabet B) →
  single_chars (alphabet A ∪ alphabet B) →
  (are_equivalent order A B).1 = Some (false, Some w) →
  word_over (alphabet A ∪ alphabet B) w' →
  String.length w' < String.length w →
  accepts (are_equivalent order A B).2.1 w' =
  accepts (are_equivalent order A B).2.2 w' ∧
  (sink_dead A → sink_dead B → accepts A w' = accepts B w').
Proof.
  intros VA VB Hw Hs Hr Hover Hlen.
  pose proof (verdict_shortest order A B w w' VA VB Hw Hs Hr Hover Hlen) as H.
  split; [done|]. intros DA DB.
  by destruct (are_equivalent_pre order A B w' DA DB) as [<- <-].
Qed.

Lemma witness_is_shortest_witness :
  accepts (are_equivalent ["0"; "1"] ends_in_one ends_in_one_bug).2.1 "" =
  accepts (are_equivalent ["0"; "1"] ends_in_one ends_in_one_bug).2.2 "" ∧
  accepts ends_in_one "" = accepts ends_in_one_bug "".
Proof.
  destruct
    (witness_is_shortest ["0"; "1"] ends_in_one ends_in_one_bug "0" "")
    as [Hpost Hpre]; [by_evaluation..|].
  split; [exact Hpost|]. apply Hpre; by_evaluation.
Defined.

(** C3 as stated fails.  With the tokens "abc" and "a" as symbols the
    witness is "abc", in whichever order the alphabet is walked, and the
    shorter word "aa" distinguishes the automatons.  With single characters
    and an accepting state labelled SINK_STATE the witness is "aa" while "a"
    distinguishes the automatons passed in. *)
Lemma witness_is_shortest_counterexample :
  (valid token_abc ∧ valid (rejects_all {["abc"; "a"]}) ∧
   walks ["abc"; "a"]
     (alphabet token_abc ∪ alphabet (rejects_all {["abc"; "a"]})) ∧
   walks ["a"; "abc"]
     (alphabet token_abc ∪ alphabet (rejects_all {["abc"; "a"]})) ∧
   (are_equivalent ["abc"; "a"] token_abc (rejects_all {["abc"; "a"]})).1
     = Some (false, Some "abc") ∧
   (are_equivalent ["a"; "abc"] token_abc (rejects_all {["abc"; "a"]})).1
     = Some (false, Some "abc") ∧
   word_over (alphabet token_abc ∪ alphabet (rejects_all {["abc"; "a"]}))
     "aa" ∧
   String.length "aa" < String.length "abc" ∧
   accepts
     (are_equivalent ["abc"; "a"] token_abc (rejects_all {["abc"; "a"]})).2.1
     "aa" ≠
   accepts
     (are_equivalent ["abc"; "a"] token_abc (rejects_all {["abc"; "a"]})).2.2
     "aa" ∧
   accepts token_abc "aa" ≠ accepts (rejects_all {["abc"; "a"]}) "aa")
  ∧
  (valid accepts_all ∧ valid sink_then_reject ∧
   walks ["a"] (alphabet accepts_all ∪ alphabet sink_then_reject) ∧
   single_chars (alphabet accepts_all ∪ alphabet sink_then_reject) ∧
   (are_equivalent ["a"] accepts_all sink_then_reject).1
     = Some (false, Some "aa") ∧
   word_over (alphabet accepts_all ∪ alphabet sink_then_reject) "a" ∧
   String.length "a" < String.length "aa" ∧
   accepts accepts_all "a" ≠ accepts sink_then_reject "a").
Proof. by_evaluation. Qed.

(** C4 (amended).  For a valid automaton in which the label SINK_STATE is
    unused or names a dead state (not accepting, all its transitions back to
    itself), and every word over its alphabet, [accepts] gives the same
    answer before and after [complete_with_sink]. *)
Theorem completion_preserves_language d w :
  valid d → sink_dead d → word_over (alphabet d) w →
  accepts (complete_with_sink d) w = accepts d w.
Proof.
  intros _ Hd _. unfold accepts. rewrite start_complete.
  by apply accepts_from_complete.
Qed.

Lemma completion_preserves_language_witness :
  accepts (complete_with_sink lone_state) "01" = accepts lone_state "01".
Proof.
  apply (completion_preserves_language lone_state "01"); by_evaluation.
Defined.

(** C4 as stated fails: when an accepting state is labelled SINK_STATE, the
    missing transitions are sent to it and a word rejected before the
    completion is accepted after it. *)
Lemma completion_preserves_language_counterexample :
  valid named_sink ∧ word_over (alphabet named_sink) "a" ∧
  accepts named_sink "a" = false ∧
  accepts (complete_with_sink named_sink) "a" = true.
Proof. by_evaluation. Qed.

(** C5 (amended).  For a valid incomplete automaton none of whose states is
    labelled SINK_STATE, [complete_with_sink] adds exactly one state, that
    label, and it is not accepting.  When a state already carries the label,
    no state is added and that state serves as the sink: in both cases every
    transition the completion adds leads to SINK_STATE. *)
Theorem completion_adds_sink d :
  valid d → is_complete d = false →
  (sink ∉ states d →
   states (complete_with_sink d) = {[sink]} ∪ states d ∧
   size (states (complete_with_sink d)) = S (size (states d)) ∧
   sink ∉ accept_states (complete_with_sink d)) ∧
  (sink ∈ states d → states (complete_with_sink d) = states d) ∧
  (∀ q a q', transitions d !! (q, a) = None →
             transitions (complete_with_sink d) !! (q, a) = Some q' →
             q' = sink).
Proof.
  intros (_ & Hacc & _) Hc. rewrite states_complete, accept_complete by done.
  split_and!.
  - intros Hs. split_and!; [done| |set_solver].
    rewrite size_union, size_singleton; [done|set_solver].
  - set_solver.
  - intros q a q'. apply complete_added.
Qed.

Lemma completion_adds_sink_witness :
  (states (complete_with_sink lone_state) = {[sink]} ∪ states lone_state ∧
   size (states (complete_with_sink lone_state)) = S (size (states lone_state)) ∧
   sink ∉ accept_states (complete_with_sink lone_state)) ∧
  states (complete_with_sink named_sink) = states named_sink.
Proof.
  split.
  - apply (completion_adds_sink lone_state); by_evaluation.
  - apply (completion_adds_sink named_sink); by_evaluation.
Defined.

(** C5 as stated fails: on a valid incomplete automaton with an accepting
    state labelled SINK_STATE the completion adds no state, and the state it
    uses as sink is accepting. *)
Lemma completion_adds_sink_counterexample :
  valid named_sink ∧ is_complete named_sink = false ∧
  sink ∈ states named_sink ∧
  states (complete_with_sink named_sink) = states named_sink ∧
  sink ∈ accept_states (complete_with_sink named_sink).
Proof. by_evaluation. Qed.

(** C6.  After [complete_with_sink] the transition dictionary is total over
    states and alphabet.  Hence, for valid automatons, the search of
    [are_equivalent] returns and every pair it ever enqueued (the dequeued
    pairs are among them) has a successor in both automatons for every
    symbol of the union alphabet: the branch that skips a symbol is never
    taken. *)
Theorem completion_total_lookups_succeed order A B :
  valid A → valid B →
  walks order (alphabet A ∪ alphabet B) →
  is_complete (complete_with_sink A) = true ∧
  is_complete (are_equivalent order A B).2.1 = true ∧
  is_complete (are_equivalent order A B).2.2 = true ∧
  ∃ r st,
    product_bfs order (are_equivalent order A B).2.1
                (are_equivalent order A B).2.2 = Some (r, st) ∧
    ∀ p a, p ∈ enqueued st → a ∈ order →
      is_Some (transitions (are_equivalent order A B).2.1 !! (p.1, a)) ∧
      is_Some (transitions (are_equivalent order A B).2.2 !! (p.2, a)).
Proof.
  intros VA VB Hw.
  destruct (are_equivalent_result order A B)
    as (r & st & Hbfs & _ & -> & _ & Hreach & _).
  split_and!; try (apply is_complete_true, complete_total).
  exists r, st. split; [done|]. intros p a Hp Ha.
  destruct (Hreach p Hp) as (sx & _ & Hsx).
  apply follow2_range in Hsx as [H1 H2].
  simpl in *. split.
  - apply complete_total.
    + apply range_states; [|done]. apply prepared_valid; [done|set_solver].
    + rewrite alphabet_complete. simpl.
      by apply (walks_elem order (alphabet A ∪ alphabet B)).
  - apply complete_total.
    + apply range_states; [|done]. apply prepared_valid; [done|set_solver].
    + rewrite alphabet_complete. simpl.
      by apply (walks_elem order (alphabet A ∪ alphabet B)).
Qed.

Lemma completion_total_lookups_succeed_witness :
  is_complete (complete_with_sink ends_in_one) = true ∧
  is_complete (are_equivalent ["0"; "1"] ends_in_one lone_state).2.1 = true ∧
  is_complete (are_equivalent ["0"; "1"] ends_in_one lone_state).2.2 = true ∧
  ∃ r st,
    product_bfs ["0"; "1"] (are_equivalent ["0"; "1"] ends_in_one lone_state).2.1
                (are_equivalent ["0"; "1"] ends_in_one lone_state).2.2
      = Some (r, st) ∧
    ∀ p a, p ∈ enqueued st → a ∈ ["0"; "1"] →
      is_Some (transitions (are_equivalent ["0"; "1"] ends_in_one lone_state).2.1
                 !! (p.1, a)) ∧
      is_Some (transitions (are_equivalent ["0"; "1"] ends_in_one lone_state).2.2
                 !! (p.2, a)).
Proof.
  apply (completion_total_lookups_succeed ["0"; "1"] ends_in_one lone_state);
    by_evaluation.
Defined.

(** C7.  A second [complete_with_sink] changes nothing: the automaton is
    the same, states and transition dictionary included. *)
Theorem completion_idempotent d :
  complete_with_sink (complete_with_sink d) = complete_with_sink d ∧
  states (complete_with_sink (complete_with_sink d))
    = states (complete_with_sink d) ∧
  transitions (complete_with_sink (complete_with_sink d))
    = transitions (complete_with_sink d).
Proof.
  assert (complete_with_sink (complete_with_sink d) = complete_with_sink d)
    as ->; [|done].
  pose proof (proj2 (is_complete_true _) (complete_total d)) as Hc.
  unfold complete_with_sink at 1. by rewrite Hc.
Qed.

(** C8.  [accepts] returns [False] when the run of the word meets a
    (state, character) pair without transition, and otherwise tells whether
    the state reached at the end of the word is accepting.  The run meets
    such a pair exactly when the word splits into a prefix that can be
    followed to a state [p] and a next character with no transition from
    [p]. *)
Theorem accepts_rejects_missing_or_tests_final d w :
  accepts d w =
    match follow (transitions d) (start_state d) (symbols w) with
    | Some q => bool_decide (q ∈ accept_states d)
    | None => false
    end ∧
  (follow (transitions d) (start_state d) (symbols w) = None ↔
   ∃ pre ch rest p, w = pre +:+ String ch rest ∧
     follow (transitions d) (start_state d) (symbols pre) = Some p ∧
     transitions d !! (p, String ch "") = None).
Proof. split; [apply accepts_from_follow|apply follow_None_split]. Qed.

(** C9.  For valid automatons the search of [are_equivalent] returns; no
    pair is enqueued twice, and the number of pairs enqueued is at most the
    product of the numbers of states of the two completed automatons. *)
Theorem are_equivalent_terminates order A B :
  valid A → valid B →
  ∃ r st,
    product_bfs order (are_equivalent order A B).2.1
                (are_equivalent order A B).2.2 = Some (r, st) ∧
    (are_equivalent order A B).1 = Some r ∧
    NoDup (enqueued st) ∧
    length (enqueued st) ≤
      size (states (are_equivalent order A B).2.1) *
      size (states (are_equivalent order A B).2.2).
Proof.
  intros VA VB.
  destruct (are_equivalent_result order A B)
    as (r & st & Hbfs & -> & -> & Hnd & Hreach & _).
  exists r, st. split_and!; [done|done|done|].
  apply pairs_bound; [done|]. intros p Hp.
  destruct (Hreach p Hp) as (sx & _ & Hsx).
  apply follow2_range in Hsx as [H1 H2]. simpl in *. split.
  - apply range_states; [|done]. apply prepared_valid; [done|set_solver].
  - apply range_states; [|done]. apply prepared_valid; [done|set_solver].
Qed.

Lemma are_equivalent_terminates_witness :
  ∃ r st,
    product_bfs ["0"; "1"]
      (are_equivalent ["0"; "1"] ends_in_one ends_in_one_bug).2.1
      (are_equivalent ["0"; "1"] ends_in_one ends_in_one_bug).2.2
      = Some (r, st) ∧
    (are_equivalent ["0"; "1"] ends_in_one ends_in_one_bug).1 = Some r ∧
    NoDup (enqueued st) ∧
    length (enqueued st) ≤
      size (states (are_equivalent ["0"; "1"] ends_in_one ends_in_one_bug).2.1) *
      size (states (are_equivalent ["0"; "1"] ends_in_one ends_in_one_bug).2.2).
Proof.
  apply (are_equivalent_terminates ["0"; "1"] ends_in_one ends_in_one_bug);
    by_evaluation.
Defined.

(** C10.  [are_equivalent] leaves the start state and the accepting states
    of both automatons as they were. *)
Theorem are_equivalent_frame order A B :
  start_state (are_equivalent order A B).2.1 = start_state A ∧
  accept_states (are_equivalent order A B).2.1 = accept_states A ∧
  start_state (are_equivalent order A B).2.2 = start_state B ∧
  accept_states (are_equivalent order A B).2.2 = accept_states B.
Proof.
  rewrite are_equivalent_unfold. simpl.
  by rewrite !start_complete, !accept_complete.
Qed.

(** ** Further properties of the automaton methods *)

Lemma outside_alphabet_rejected d q w :
  map_Forall (fun k _ => k.2 ∈ alphabet d) (transitions d) →
  ¬ word_over (alphabet d) w → accepts_from d q w = false.
Proof.
  intros Hk. revert q. unfold word_over.
  induction w as [|c w IH]; intros q Hw; simpl in *.
  - destruct Hw. constructor.
  - destruct (transitions d !! (q, String c "")) as [q'|] eqn:Hq; [|done].
    apply IH. intros Hrest. apply Hw. constructor; [|done].
    by apply Hk in Hq.
Qed.

Lemma valid_symbols_in_alphabet d :
  valid d → map_Forall (fun k _ => k.2 ∈ alphabet d) (transitions d).
Proof. intros (_ & _ & Ht) k v Hk. by apply Ht in Hk as (_ & ? & _). Qed.

(** X1.  [complete_with_sink] never overwrites a transition, and every
    transition it adds leads to SINK_STATE from a state of the automaton
    (or from SINK_STATE itself) on a symbol of the alphabet. *)
Theorem completion_only_adds_sink_rows d :
  (∀ q a v, transitions d !! (q, a) = Some v →
            transitions (complete_with_sink d) !! (q, a) = Some v) ∧
  (∀ q a v, transitions d !! (q, a) = None →
            transitions (complete_with_sink d) !! (q, a) = Some v →
            v = sink ∧ (q = sink ∨ q ∈ states d) ∧ a ∈ alphabet d).
Proof.
  split; [apply complete_extends|].
  intros q a v Hn. destruct (is_complete d) eqn:Hc.
  - unfold complete_with_sink. rewrite Hc. congruence.
  - rewrite lookup_complete, Hn by done.
    case_decide as H; [|done]. intros [= <-]. tauto.
Qed.

(** X2.  [complete_with_sink] keeps a valid automaton valid and makes it
    complete; it adds at most the state SINK_STATE and leaves the name, the
    alphabet, the start state and the accepting states alone. *)
Theorem completion_keeps_valid d :
  valid d →
  valid (complete_with_sink d) ∧
  is_complete (complete_with_sink d) = true ∧
  states d ⊆ states (complete_with_sink d) ∧
  states (complete_with_sink d) ⊆ {[sink]} ∪ states d ∧
  name (complete_with_sink d) = name d ∧
  alphabet (complete_with_sink d) = alphabet d ∧
  start_state (complete_with_sink d) = start_state d ∧
  accept_states (complete_with_sink d) = accept_states d.
Proof.
  intros V. split_and!.
  - by apply complete_valid.
  - apply is_complete_true, complete_total.
  - destruct (is_complete d) eqn:Hc.
    + unfold complete_with_sink. by rewrite Hc.
    + rewrite states_complete by done. set_solver.
  - destruct (is_complete d) eqn:Hc.
    + unfold complete_with_sink. rewrite Hc. set_solver.
    + by rewrite states_complete.
  - unfold complete_with_sink. by destruct (is_complete d).
  - apply alphabet_complete.
  - apply start_complete.
  - apply accept_complete.
Qed.

Lemma completion_keeps_valid_witness :
  valid (complete_with_sink lone_state) ∧
  is_complete (complete_with_sink lone_state) = true ∧
  states lone_state ⊆ states (complete_with_sink lone_state) ∧
  states (complete_with_sink lone_state) ⊆ {[sink]} ∪ states lone_state ∧
  name (complete_with_sink lone_state) = name lone_state ∧
  alphabet (complete_with_sink lone_state) = alphabet lone_state ∧
  start_state (complete_with_sink lone_state) = start_state lone_state ∧
  accept_states (complete_with_sink lone_state) = accept_states lone_state.
Proof. apply (completion_keeps_valid lone_state). by_evaluation. Defined.

(** X3.  With an empty alphabet every automaton counts as complete, so
    [complete_with_sink] returns it unchanged: no sink is added even when
    the automaton has no transition at all. *)
Theorem completion_empty_alphabet d :
  alphabet d = ∅ → is_complete d = true ∧ complete_with_sink d = d.
Proof.
  intros He.
  assert (is_complete d = true) as Hc.
  { apply is_complete_true. intros q a _ Ha. rewrite He in Ha. set_solver. }
  split; [done|]. unfold complete_with_sink. by rewrite Hc.
Qed.

Lemma completion_empty_alphabet_witness :
  is_complete (rejects_all ∅) = true ∧
  complete_with_sink (rejects_all ∅) = rejects_all ∅.
Proof. apply (completion_empty_alphabet (rejects_all ∅)). reflexivity. Defined.

(** X4.  A valid automaton rejects every word that contains a character
    outside its alphabet, and still does after [complete_with_sink]: the
    completion adds transitions on alphabet symbols only. *)
Theorem accepts_rejects_outside_alphabet d w :
  valid d → ¬ word_over (alphabet d) w →
  accepts d w = false ∧ accepts (complete_with_sink d) w = false.
Proof.
  intros V Hw. split.
  - by apply outside_alphabet_rejected; [apply valid_symbols_in_alphabet|].
  - apply outside_alphabet_rejected.
    + by apply valid_symbols_in_alphabet, complete_valid.
    + by rewrite alphabet_complete.
Qed.

Lemma accepts_rejects_outside_alphabet_witness :
  accepts ends_in_one "12" = false ∧
  accepts (complete_with_sink ends_in_one) "12" = false.
Proof.
  apply (accepts_rejects_outside_alphabet ends_in_one "12"); by_evaluation.
Defined.

(** X5.  Reading a concatenation: [accepts] on [w1] followed by [w2] runs
    [w1] from the start state and, if no transition is missing, goes on
    with [w2] from the state reached; a word with a rejected-for-missing
    prefix is rejected whatever follows. *)
Theorem accepts_concat d w1 w2 :
  accepts d (w1 +:+ w2) =
    match follow (transitions d) (start_state d) (symbols w1) with
    | Some q => accepts_from d q w2
    | None => false
    end.
Proof.
  unfold accepts. generalize (start_state d).
  induction w1 as [|c w1 IH]; intros q; [done|].
  change (String c w1 +:+ w2) with (String c (w1 +:+ w2)). simpl.
  destruct (transitions d !! (q, String c "")); [apply IH|done].
Qed.

(** X6.  After [complete_with_sink], the run of a valid automaton on a
    word over its alphabet never meets a missing transition: it ends in a
    state of the automaton, and [accepts] tells whether that state is
    accepting. *)
Theorem completed_run_exists d w :
  valid d → word_over (alphabet d) w →
  ∃ q, follow (transitions (complete_with_sink d))
              (start_state (complete_with_sink d)) (symbols w) = Some q ∧
       q ∈ states (complete_with_sink d) ∧
       accepts (complete_with_sink d) w = bool_decide (q ∈ accept_states d).
Proof.
  intros V Hw.
  destruct (follow_total (complete_with_sink d)
              (start_state (complete_with_sink d)) (symbols w))
    as (q & Hq & Hin).
  - by apply complete_valid.
  - apply complete_total.
  - by destruct (complete_valid d V).
  - by rewrite alphabet_complete.
  - exists q. split_and!; [done|done|].
    unfold accepts. by rewrite accepts_from_follow, Hq, accept_complete.
Qed.

Lemma completed_run_exists_witness :
  ∃ q, follow (transitions (complete_with_sink lone_state))
              (start_state (complete_with_sink lone_state)) (symbols "01")
         = Some q ∧
       q ∈ states (complete_with_sink lone_state) ∧
       accepts (complete_with_sink lone_state) "01"
         = bool_decide (q ∈ accept_states lone_state).
Proof. apply (completed_run_exists lone_state "01"); by_evaluation. Defined.

(** ** Further properties of the equivalence check *)

Lemma verdict_true_iff order A B :
  (are_equivalent order A B).1 = Some (true, None) ↔
  ∀ sx x, Forall (fun a => a ∈ order) sx →
    follow2 (prepare A B).1 (prepare A B).2
      (start_state (prepare A B).1, start_state (prepare A B).2) sx = Some x →
    disagree (prepare A B).1 (prepare A B).2 x = false.
Proof.
  destruct (are_equivalent_result order A B)
    as (r & st & _ & -> & _ & _ & _ & Hr).
  split.
  - intros [= ->]. by destruct Hr as [ [_ ?]|(? & ? & ? & _) ].
  - intros Hall.
    destruct Hr as [ [-> _]|(sx & x & _ & Hsx & Hx & Hd & _) ]; [done|].
    by rewrite (Hall sx x Hsx Hx) in Hd.
Qed.

Lemma follow2_swap d1 d2 p sx x :
  follow2 d1 d2 p sx = Some x ↔ follow2 d2 d1 (p.2, p.1) sx = Some (x.2, x.1).
Proof.
  unfold follow2. destruct p as [p1 p2], x as [x1 x2]. simpl.
  destruct (follow _ p1 sx), (follow _ p2 sx); naive_solver.
Qed.

Lemma disagree_swap d1 d2 x : disagree d1 d2 x = disagree d2 d1 (x.2, x.1).
Proof. unfold disagree. simpl. apply xorb_comm. Qed.

Lemma prepare_swap A B : prepare B A = ((prepare A B).2, (prepare A B).1).
Proof.
  unfold prepare. simpl.
  by rewrite (union_comm_L (alphabet B) (alphabet A)).
Qed.

Lemma set_alphabet_same d : set_alphabet d (alphabet d) = d.
Proof. by destruct d. Qed.

Lemma prepare_fixed A B :
  is_complete A = true → is_complete B = true → alphabet A = alphabet B →
  prepare A B = (A, B).
Proof.
  intros HA HB He. unfold prepare. rewrite <-He, union_idemp_L.
  rewrite set_alphabet_same. rewrite He, set_alphabet_same.
  unfold complete_with_sink. by rewrite HA, HB.
Qed.

Lemma length_concat_single sx :
  Forall (fun a => String.length a = 1) sx →
  String.length (String.concat "" sx) = length sx.
Proof.
  intros H. by rewrite <-length_symbols, symbols_concat.
Qed.


(** X7.  [are_equivalent] returns for any two automatons, valid or not,
    and in whatever order the alphabet is walked; what it returns is either
    (True, None) or (False, word). *)
Theorem are_equivalent_always_returns order A B :
  (are_equivalent order A B).1 = Some (true, None) ∨
  ∃ w, (are_equivalent order A B).1 = Some (false, Some w).
Proof.
  destruct (are_equivalent_result order A B)
    as (r & st & _ & -> & _ & _ & _ & [ [-> _]|(sx & x & -> & _) ]); eauto.
Qed.

(** X8.  Reflexivity: an automaton compared with itself is EQUIVALENT,
    whatever the automaton and the order of the walk. *)
Theorem are_equivalent_reflexive order A :
  (are_equivalent order A A).1 = Some (true, None).
Proof.
  apply verdict_true_iff. intros sx [x1 x2] _. unfold follow2, disagree. simpl.
  destruct (follow _ _ sx) as [q|]; [|done]. intros [= <- <-].
  apply xorb_nilpotent.
Qed.

(** X9.  Symmetry: swapping the two automatons does not change the
    verdict. *)
Theorem are_equivalent_symmetric order A B :
  (are_equivalent order A B).1 = Some (true, None) ↔
  (are_equivalent order B A).1 = Some (true, None).
Proof.
  rewrite !verdict_true_iff, prepare_swap. cbn [fst snd].
  split; intros H sx [x1 x2] Hsx Hx.
  - apply follow2_swap in Hx. apply (H _ _ Hsx) in Hx.
    by rewrite disagree_swap in Hx.
  - apply follow2_swap in Hx. apply (H _ _ Hsx) in Hx.
    by rewrite disagree_swap in Hx.
Qed.

(** X10.  The verdict does not depend on the order in which the union
    alphabet is walked; the witness may, but when the symbols are single
    characters its length does not. *)
Theorem verdict_independent_of_order o1 o2 A B :
  (list_to_set o1 : gset string) = list_to_set o2 →
  ((are_equivalent o1 A B).1 = Some (true, None) ↔
   (are_equivalent o2 A B).1 = Some (true, None)) ∧
  (Forall (fun a => String.length a = 1) o1 →
   ∀ w1 w2, (are_equivalent o1 A B).1 = Some (false, Some w1) →
            (are_equivalent o2 A B).1 = Some (false, Some w2) →
            String.length w1 = String.length w2).
Proof.
  intros Ho.
  assert (Hiff : ∀ a, a ∈ o1 ↔ a ∈ o2).
  { intros a. by rewrite <-(elem_of_list_to_set (C:=gset string)), Ho,
      elem_of_list_to_set. }
  assert (Hall : ∀ sx, Forall (fun a => a ∈ o1) sx ↔
                       Forall (fun a => a ∈ o2) sx).
  { intros sx. rewrite !Forall_forall. naive_solver. }
  split.
  - rewrite !verdict_true_iff. split; intros H sx x Hsx; apply H;
      by apply Hall.
  - intros Hs w1 w2.
    destruct (are_equivalent_result o1 A B)
      as (r1 & st1 & _ & -> & _ & _ & _ & Hr1).
    destruct (are_equivalent_result o2 A B)
      as (r2 & st2 & _ & -> & _ & _ & _ & Hr2).
    intros [= ->] [= ->].
    destruct Hr1 as [ [? _]|(sx1 & x1 & [= ->] & Hsx1 & Hx1 & Hd1 & Hm1) ];
      [done|].
    destruct Hr2 as [ [? _]|(sx2 & x2 & [= ->] & Hsx2 & Hx2 & Hd2 & Hm2) ];
      [done|].
    rewrite !length_concat_single.
    + destruct (decide (length sx1 < length sx2)) as [Hlt|].
      { apply Hall in Hsx1. rewrite (Hm2 sx1 x1 Hsx1 Hlt Hx1) in Hd1. done. }
      destruct (decide (length sx2 < length sx1)) as [Hlt|]; [|lia].
      apply Hall in Hsx2. rewrite (Hm1 sx2 x2 Hsx2 Hlt Hx2) in Hd2. done.
    + apply Hall in Hsx2. rewrite Forall_forall in Hs, Hsx2.
      apply Forall_forall. auto.
    + rewrite Forall_forall in Hs, Hsx1. apply Forall_forall. auto.
Qed.

Lemma verdict_independent_of_order_witness :
  ((are_equivalent ["0"; "1"] ends_in_one ends_in_one_bug).1
     = Some (true, None) ↔
   (are_equivalent ["1"; "0"] ends_in_one ends_in_one_bug).1
     = Some (true, None)) ∧
  (∀ w1 w2,
     (are_equivalent ["0"; "1"] ends_in_one ends_in_one_bug).1
       = Some (false, Some w1) →
     (are_equivalent ["1"; "0"] ends_in_one ends_in_one_bug).1
       = Some (false, Some w2) →
     String.length w1 = String.length w2).
Proof.
  destruct (verdict_independent_of_order ["0"; "1"] ["1"; "0"]
              ends_in_one ends_in_one_bug) as [H1 H2]; [by_evaluation|].
  split; [exact H1|]. apply H2. by_evaluation.
Defined.



(** X12.  What the call does to its arguments: both automatons end up with
    the union alphabet, gain at most the state SINK_STATE, keep their name
    and every transition they had; the transitions added lead to
    SINK_STATE. *)
Theorem are_equivalent_footprint order A B :
  alphabet (are_equivalent order A B).2.1 = alphabet A ∪ alphabet B ∧
  alphabet (are_equivalent order A B).2.2 = alphabet A ∪ alphabet B ∧
  name (are_equivalent order A B).2.1 = name A ∧
  name (are_equivalent order A B).2.2 = name B ∧
  states A ⊆ states (are_equivalent order A B).2.1 ∧
  states (are_equivalent order A B).2.1 ⊆ {[sink]} ∪ states A ∧
  states B ⊆ states (are_equivalent order A B).2.2 ∧
  states (are_equivalent order A B).2.2 ⊆ {[sink]} ∪ states B ∧
  (∀ k v, transitions A !! k = Some v →
          transitions (are_equivalent order A B).2.1 !! k = Some v) ∧
  (∀ k v, transitions B !! k = Some v →
          transitions (are_equivalent order A B).2.2 !! k = Some v) ∧
  (∀ k v, transitions A !! k = None →
          transitions (are_equivalent order A B).2.1 !! k = Some v →
          v = sink) ∧
  (∀ k v, transitions B !! k = None →
          transitions (are_equivalent order A B).2.2 !! k = Some v →
          v = sink).
Proof.
  rewrite are_equivalent_unfold. cbn [fst snd prepare].
  assert (Hst : ∀ d, states d ⊆ states (complete_with_sink d) ∧
                     states (complete_with_sink d) ⊆ {[sink]} ∪ states d).
  { intros d. destruct (is_complete d) eqn:Hc.
    - unfold complete_with_sink. rewrite Hc. set_solver.
    - rewrite states_complete by done. set_solver. }
  assert (Hnm : ∀ d, name (complete_with_sink d) = name d).
  { intros d. unfold complete_with_sink. by destruct (is_complete d). }
  rewrite !alphabet_complete, !Hnm.
  split_and!; try done; try apply (Hst (set_alphabet _ _)).
  - intros [q a] v. apply (complete_extends (set_alphabet A _)).
  - intros [q a] v. apply (complete_extends (set_alphabet B _)).
  - intros [q a] v. apply (complete_added (set_alphabet A _)).
  - intros [q a] v. apply (complete_added (set_alphabet B _)).
Qed.

(** X13.  Two complete automatons over the same alphabet, such as those
    [parse_dfa] returns for equal alphabet fields, come back from
    [are_equivalent] unchanged. *)
Theorem are_equivalent_leaves_complete order A B :
  is_complete A = true → is_complete B = true → alphabet A = alphabet B →
  (are_equivalent order A B).2 = (A, B).
Proof.
  intros HA HB He. rewrite are_equivalent_unfold. cbn [snd].
  by apply prepare_fixed.
Qed.

Lemma are_equivalent_leaves_complete_witness :
  (are_equivalent ["0"; "1"] ends_in_one ends_in_one_bug).2
    = (ends_in_one, ends_in_one_bug).
Proof.
  apply (are_equivalent_leaves_complete ["0"; "1"] ends_in_one ends_in_one_bug);
    by_evaluation.
Defined.


(** X15.  Read over lists of alphabet symbols instead of characters, the
    verdict is right for every alphabet, tokens included: the answer is
    EQUIVALENT exactly when no list of symbols that both completed
    automatons can follow leads them to states that disagree on
    acceptance. *)
Theorem verdict_decides_symbol_lists order A B :
  walks order (alphabet A ∪ alphabet B) →
  (are_equivalent order A B).1 = Some (true, None) ↔
  ∀ syms p q,
    Forall (fun a => a ∈ alphabet A ∪ alphabet B) syms →
    follow (transitions (are_equivalent order A B).2.1) (start_state A) syms
      = Some p →
    follow (transitions (are_equivalent order A B).2.2) (start_state B) syms
      = Some q →
    (p ∈ accept_states A ↔ q ∈ accept_states B).
Proof.
  intros Hw. rewrite verdict_true_iff, are_equivalent_unfold. cbn [fst snd].
  assert (Hall : ∀ sx, Forall (fun a => a ∈ order) sx ↔
                       Forall (fun a => a ∈ alphabet A ∪ alphabet B) sx).
  { intros sx. rewrite !Forall_forall.
    split; intros H a Ha; by apply (walks_elem order _ a Hw), H. }
  assert (S1 : start_state (prepare A B).1 = start_state A)
    by apply (start_complete (set_alphabet A _)).
  assert (S2 : start_state (prepare A B).2 = start_state B)
    by apply (start_complete (set_alphabet B _)).
  assert (A1 : accept_states (prepare A B).1 = accept_states A)
    by apply (accept_complete (set_alphabet A _)).
  assert (A2 : accept_states (prepare A B).2 = accept_states B)
    by apply (accept_complete (set_alphabet B _)).
  destruct (prepare A B) as [d1 d2]. cbn [fst snd] in *.
  unfold follow2, disagree. cbn [fst snd]. rewrite S1, S2, A1, A2.
  split.
  - intros H syms p q Hs Hp Hq.
    specialize (H syms (p, q) (proj2 (Hall syms) Hs)).
    rewrite Hp, Hq in H. specialize (H eq_refl). cbn [fst snd] in H.
    destruct (bool_decide (p ∈ _)) eqn:E1, (bool_decide (q ∈ _)) eqn:E2;
      try done.
    + apply bool_decide_eq_true in E1, E2. tauto.
    + apply bool_decide_eq_false in E1, E2. tauto.
  - intros H sx [p q] Hs.
    destruct (follow _ (start_state A) sx) as [p'|] eqn:Hp; [|done].
    destruct (follow _ (start_state B) sx) as [q'|] eqn:Hq; [|done].
    intros [= <- <-]. cbn [fst snd].
    specialize (H sx p' q' (proj1 (Hall sx) Hs) Hp Hq).
    destruct (bool_decide (p' ∈ _)) eqn:E1, (bool_decide (q' ∈ _)) eqn:E2;
      try done.
    + apply bool_decide_eq_true in E1. apply bool_decide_eq_false in E2. tauto.
    + apply bool_decide_eq_false in E1. apply bool_decide_eq_true in E2. tauto.
Qed.

Lemma verdict_decides_symbol_lists_witness :
  (are_equivalent ["ab"] token_ab (rejects_all {["ab"]})).1
    = Some (true, None) ↔
  ∀ syms p q,
    Forall (fun a => a ∈ alphabet token_ab ∪ alphabet (rejects_all {["ab"]}))
           syms →
    follow (transitions
              (are_equivalent ["ab"] token_ab (rejects_all {["ab"]})).2.1)
           (start_state token_ab) syms = Some p →
    follow (transitions
              (are_equivalent ["ab"] token_ab (rejects_all {["ab"]})).2.2)
           (start_state (rejects_all {["ab"]})) syms = Some q →
    (p ∈ accept_states token_ab ↔ q ∈ accept_states (rejects_all {["ab"]})).
Proof.
  apply (verdict_decides_symbol_lists ["ab"] token_ab (rejects_all {["ab"]})).
  by_evaluation.
Defined.

(** ** Further properties of the witness reconstruction *)

Section walking.
Variables (parent : gmap spair (spair * string)) (start : spair).

Lemma walk_run cur keys path :
  walk parent start cur keys path →
  ∀ fuel acc, length keys < fuel →
    reconstruct_loop fuel parent start cur acc = Some (acc ++ path).
Proof.
  induction 1 as [|cur Hne Hp|cur prev symbol keys path Hne Hp _ IH];
    intros [|fuel] acc Hlen; simpl in Hlen; try lia; cbn [reconstruct_loop].
  - rewrite decide_True by done. by rewrite app_nil_r.
  - rewrite decide_False, Hp by done. by rewrite app_nil_r.
  - rewrite decide_False, Hp by done.
    rewrite IH by lia. by rewrite <-app_assoc.
Qed.

Lemma loop_walk fuel cur acc res :
  reconstruct_loop fuel parent start cur acc = Some res →
  ∃ keys path, walk parent start cur keys path ∧ res = acc ++ path.
Proof.
  revert cur acc. induction fuel as [|fuel IH]; intros cur acc; [done|].
  cbn [reconstruct_loop].
  destruct (decide (cur = start)) as [->|Hne].
  { intros [= <-]. exists [], []. split; [constructor|by rewrite app_nil_r]. }
  destruct (parent !! cur) as [ [prev symbol]|] eqn:Hp.
  - intros (keys & path & Hw & ->)%IH.
    exists (cur :: keys), (symbol :: path).
    split; [by econstructor|by rewrite <-app_assoc].
  - intros [= <-]. exists [], [].
    split; [by constructor|by rewrite app_nil_r].
Qed.

Lemma walk_det cur keys1 path1 keys2 path2 :
  walk parent start cur keys1 path1 → walk parent start cur keys2 path2 →
  keys1 = keys2.
Proof.
  intros H. revert keys2 path2.
  induction H as [|cur Hne Hp|cur prev symbol keys path Hne Hp _ IH];
    intros keys2 path2 H2; inversion H2; simplify_eq; try done.
  f_equal. by eapply IH.
Qed.

Lemma walk_suffix cur keys path k :
  walk parent start cur keys path → k ∈ keys →
  ∃ keys' path', walk parent start k keys' path' ∧
                 length keys' ≤ length keys.
Proof.
  induction 1 as [|cur Hne Hp|cur prev symbol keys path Hne Hp Hw IH];
    intros Hk; try by apply elem_of_nil in Hk.
  apply elem_of_cons in Hk as [->|Hk].
  - exists (cur :: keys), (symbol :: path). split; [by econstructor|done].
  - destruct (IH Hk) as (keys' & path' & ? & ?).
    exists keys', path'. split; [done|]. simpl. lia.
Qed.

(** A walk that ends reads no back-pointer twice. *)
Lemma walk_nodup cur keys path :
  walk parent start cur keys path →
  NoDup keys ∧ ∀ k, k ∈ keys → is_Some (parent !! k).
Proof.
  induction 1 as [|cur Hne Hp|cur prev symbol keys path Hne Hp Hw [IH1 IH2] ].
  - split; [constructor|]. intros k Hk. by apply elem_of_nil in Hk.
  - split; [constructor|]. intros k Hk. by apply elem_of_nil in Hk.
  - split.
    + constructor; [|done]. intros Hin.
      destruct (walk_suffix _ _ _ _ Hw Hin) as (keys' & path' & Hw' & Hlen).
      assert (walk parent start cur (cur :: keys) (symbol :: path)) as Hw''
        by by econstructor.
      rewrite (walk_det _ _ _ _ _ Hw' Hw'') in Hlen. simpl in Hlen. lia.
    + intros k [->|Hk]%elem_of_cons; [by eexists|auto].
Qed.

Lemma walk_length cur keys path :
  walk parent start cur keys path → length keys ≤ size parent.
Proof.
  intros [Hnd Hdom]%walk_nodup.
  rewrite <-size_dom. unfold size at 1, set_size. simpl.
  apply submseteq_length, NoDup_submseteq; [done|].
  intros k Hk. apply elem_of_elements, elem_of_dom. auto.
Qed.
End walking.

(** X16.  [reconstruct_word] returns exactly when the walk over the
    back-pointers from [end] reaches [start] or a pair without back-pointer
    (it cannot return when the walk runs into a cycle); what it returns is
    the symbols met on the walk, in reverse order, joined. *)
Theorem reconstruct_word_returns_iff_walk parent start end_ w :
  reconstruct_word parent start end_ = Some w ↔
  ∃ keys path, walk parent start end_ keys path ∧
               w = String.concat "" (reverse path).
Proof.
  unfold reconstruct_word. split.
  - destruct (reconstruct_loop _ _ _ _ _) as [res|] eqn:Hres; [|done].
    simpl. intros [= <-].
    apply loop_walk in Hres as (keys & path & Hw & ->). eauto.
  - intros (keys & path & Hw & ->).
    rewrite (walk_run _ _ _ _ _ Hw); [done|].
    pose proof (walk_length _ _ _ _ _ Hw). lia.
Qed.

(** ** Properties of the form reader *)

Lemma fields_nonempty s a : a ∈ fields s → a ≠ "".
Proof.
  unfold fields. rewrite elem_of_list_to_set, list_elem_of_filter. tauto.
Qed.

Lemma read_line_inr sts sigma i line k v :
  read_line sts sigma i line = inr (k, v) →
  k.1 ∈ sts ∧ k.2 ∈ sigma ∧ v ∈ sts ∧
  ∀ j, read_line sts sigma j line = inr (k, v).
Proof.
  unfold read_line. destruct (contains_arrow line); [|done]. simpl.
  destruct (split_arrow line) as [|lhs [|rhs [|? ?] ] ]; try done.
  destruct (split_comma lhs) as [|q [|ch [|? ?] ] ]; try done.
  destruct (bool_decide (strip q ∉ sts)) eqn:E1; [done|].
  destruct (bool_decide (strip rhs ∉ sts)) eqn:E2; [done|].
  destruct (bool_decide (strip ch ∉ sigma)) eqn:E3; [done|]. simpl.
  intros [= <- <-]. simpl.
  apply bool_decide_eq_false in E1, E2, E3.
  split_and!; try done; by apply dec_stable.
Qed.

Lemma parse_lines_targets sts sigma i lines t t' :
  parse_lines sts sigma i lines t = inr t' →
  map_Forall (fun k v => k.1 ∈ sts ∧ k.2 ∈ sigma ∧ v ∈ sts) t →
  map_Forall (fun k v => k.1 ∈ sts ∧ k.2 ∈ sigma ∧ v ∈ sts) t'.
Proof.
  revert i t. induction lines as [|line lines IH]; intros i t; simpl.
  { by intros [= <-]. }
  destruct (decide (strip line = "")); [apply IH|].
  destruct (read_line sts sigma i (strip line)) as [e|[k v] ] eqn:Hr; [done|].
  intros Hp Ht. apply (IH _ _ Hp). apply map_Forall_insert_2; [|done].
  apply read_line_inr in Hr. tauto.
Qed.


Lemma parse_dfa_inr data nm d :
  parse_dfa data nm = inr d →
  ∃ t, d = complete_with_sink
             (mkDFA nm (fields (strip (p_states data)))
                    (fields (strip (p_alphabet data)))
                    (strip (p_start data))
                    (fields (strip (p_accept data))) t) ∧
       valid (mkDFA nm (fields (strip (p_states data)))
                    (fields (strip (p_alphabet data)))
                    (strip (p_start data))
                    (fields (strip (p_accept data))) t).
Proof.
  unfold parse_dfa. cbv zeta.
  destruct (bool_decide (_ ∨ _ ∨ _)); [done|].
  destruct (bool_decide (strip (p_start data) ∉ _)) eqn:E1; [done|].
  destruct (bool_decide (¬ _ ⊆ _)) eqn:E2; [done|].
  apply bool_decide_eq_false in E1, E2.
  apply dec_stable in E1, E2.
  destruct (decide (strip (p_trans data) = "")).
  - intros [= <-]. exists ∅. split; [done|].
    split_and!; [done|done|apply map_Forall_empty].
  - destruct (parse_lines _ _ _ _ _) as [e|t] eqn:Hp; [done|].
    intros [= <-]. exists t. split; [done|].
    split_and!; [done|done|].
    apply (parse_lines_targets _ _ _ _ _ _ Hp), map_Forall_empty.
Qed.

(** X17.  Every automaton [parse_dfa] returns satisfies the invariants of
    a valid automaton and is complete; it carries the given name, the
    stripped start label and the alphabet and accepting states read from
    the form, and none of its symbols or states is the empty string. *)
Theorem parse_dfa_valid_complete data nm d :
  parse_dfa data nm = inr d →
  valid d ∧ is_complete d = true ∧
  name d = nm ∧
  start_state d = strip (p_start data) ∧
  alphabet d = fields (strip (p_alphabet data)) ∧
  accept_states d = fields (strip (p_accept data)) ∧
  (∀ a, a ∈ alphabet d → a ≠ "") ∧
  (∀ q, q ∈ states d → q ≠ "").
Proof.
  intros (t & -> & V)%parse_dfa_inr.
  rewrite start_complete, alphabet_complete, accept_complete. simpl.
  split_and!; try done.
  - by apply complete_valid.
  - apply is_complete_true, complete_total.
  - unfold complete_with_sink. by destruct (is_complete _).
  - intros a. apply fields_nonempty.
  - intros q Hq.
    assert (q ∈ ({[sink]} : gset string) ∪ fields (strip (p_states data)))
      as [->%elem_of_singleton|Hf]%elem_of_union.
    { revert Hq. unfold complete_with_sink.
      destruct (is_complete _); simpl; [set_solver|].
      case_decide; set_solver. }
    + done.
    + by eapply fields_nonempty.
Qed.

Lemma parse_dfa_valid_complete_witness :
  ∃ d, parse_dfa untidy_panel "AFD 1" = inr d ∧
  valid d ∧ is_complete d = true ∧
  name d = "AFD 1" ∧
  start_state d = strip (p_start untidy_panel) ∧
  alphabet d = fields (strip (p_alphabet untidy_panel)) ∧
  accept_states d = fields (strip (p_accept untidy_panel)) ∧
  (∀ a, a ∈ alphabet d → a ≠ "") ∧
  (∀ q, q ∈ states d → q ≠ "").
Proof.
  destruct (parse_dfa untidy_panel "AFD 1") as [e|d] eqn:Hp.
  - exfalso. revert Hp. by vm_compute.
  - exists d. split; [done|].
    by apply (parse_dfa_valid_complete untidy_panel "AFD 1").
Defined.



(** X19.  Two automatons read by [parse_dfa] from forms with the same
    alphabet are already complete over that alphabet, so [are_equivalent]
    hands them back unchanged. *)
Theorem parsed_automatons_unchanged order data1 nm1 data2 nm2 d1 d2 :
  parse_dfa data1 nm1 = inr d1 → parse_dfa data2 nm2 = inr d2 →
  fields (strip (p_alphabet data1)) = fields (strip (p_alphabet data2)) →
  (are_equivalent order d1 d2).2 = (d1, d2).
Proof.
  intros (t1 & -> & _)%parse_dfa_inr (t2 & -> & _)%parse_dfa_inr He.
  rewrite are_equivalent_unfold. cbn [snd]. apply prepare_fixed.
  - apply is_complete_true, complete_total.
  - apply is_complete_true, complete_total.
  - by rewrite !alphabet_complete.
Qed.

Lemma parsed_automatons_unchanged_witness :
  ∃ d1 d2,
    parse_dfa placeholder_panel "AFD 1" = inr d1 ∧
    parse_dfa untidy_panel "AFD 2" = inr d2 ∧
    (are_equivalent ["0"; "1"] d1 d2).2 = (d1, d2).
Proof.
  destruct (parse_dfa placeholder_panel "AFD 1") as [e|d1] eqn:H1.
  { exfalso. revert H1. by vm_compute. }
  destruct (parse_dfa untidy_panel "AFD 2") as [e|d2] eqn:H2.
  { exfalso. revert H2. by vm_compute. }
  exists d1, d2. split_and!; [done|done|].
  apply (parsed_automatons_unchanged ["0"; "1"] placeholder_panel "AFD 1"
           untidy_panel "AFD 2" d1 d2 H1 H2).
  by_evaluation.
Defined.

(** ** A bound on the witness *)

Section witness_bound.
Variables (d1 d2 : DFA) (order : list string).

Abbreviation start2 := (start_state d1, start_state d2).
Abbreviation pairs_max := (size (range d1) * size (range d2)).

Lemma range_size_pos d : 0 < size (range d).
Proof.
  assert (size (range d) ≠ 0); [|lia].
  apply size_non_empty_iff. unfold range. set_solver.
Qed.

Lemma bfs_loop_witness_bound fuel log gdone h sh gq st r st' w :
  inv d1 d2 order log gdone h sh order gq st →
  bfs_loop fuel order d1 d2 start2 st = Some (r, st') →
  r = (false, Some w) →
  ∃ sx, w = String.concat "" sx ∧ Forall (fun a => a ∈ order) sx ∧
        length sx < pairs_max.
Proof.
  revert log gdone h sh gq st.
  induction fuel as [|fuel IH]; intros log gdone h sh gq st I; [done|].
  cbn [bfs_loop]. rewrite (inv_queue _ _ _ _ _ _ _ _ _ _ I).
  destruct gq as [|[h' sh'] rest]; cbn [fmap list_fmap].
  { by intros [= <- _] [=]. }
  cbv beta iota zeta. change ((h', sh').1) with h'.
  assert (Hh' : (h', sh') ∈ log).
  { rewrite (inv_split _ _ _ _ _ _ _ _ _ _ I).
    apply elem_of_app. right. right. by left. }
  destruct (disagree d1 d2 h') eqn:Hd.
  - rewrite (reconstruct_word_spec d1 d2 order _ _ _ _ _ _ _ _ _ I Hh'). cbn.
    intros [= <- _] [= <-]. exists sh'.
    destruct (inv_path _ _ _ _ _ _ _ _ _ _ I _ _ Hh') as (_ & Ha & Hlen).
    pose proof (inv_log_bound d1 d2 order _ _ _ _ _ _ _ I).
    split_and!; [done|done|lia].
  - pose proof (inv_advance d1 d2 order _ _ _ _ _ _ _ _ I Hd) as I1.
    destruct (expand_inv d1 d2 order order _ _ _ _ _ _ _ I1)
      as (log' & gq' & I2).
    { by apply Forall_forall. }
    rewrite app_nil_l in I2. by apply (IH _ _ _ _ _ _ I2).
Qed.

Lemma product_bfs_witness_bound r st w :
  product_bfs order d1 d2 = Some (r, st) → r = (false, Some w) →
  ∃ sx, w = String.concat "" sx ∧ Forall (fun a => a ∈ order) sx ∧
        length sx < pairs_max.
Proof.
  unfold product_bfs. cbn [bfs_loop queue visited parent enqueued].
  destruct (disagree d1 d2 start2) eqn:Hd.
  - unfold reconstruct_word. cbn [reconstruct_loop].
    rewrite decide_True by done. cbn. intros [= <- _] [= <-].
    exists []. split_and!; [done|constructor|]. simpl.
    pose proof (range_size_pos d1). pose proof (range_size_pos d2). nia.
  - destruct (expand_inv d1 d2 order order _ _ _ _ _ _ _
                (inv_init d1 d2 order Hd))
      as (log' & gq' & I2).
    { by apply Forall_forall. }
    rewrite app_nil_l in I2. by eapply bfs_loop_witness_bound.
Qed.
End witness_bound.

(** X20.  The witness is short: for valid automatons whose symbols are
    single characters, a witness has fewer characters than the completed
    automatons have pairs of states. *)
Theorem witness_length_bound order A B w :
  valid A → valid B →
  Forall (fun a => String.length a = 1) order →
  (are_equivalent order A B).1 = Some (false, Some w) →
  String.length w <
    size (states (are_equivalent order A B).2.1) *
    size (states (are_equivalent order A B).2.2).
Proof.
  intros VA VB Hs.
  destruct (are_equivalent_result order A B) as (r & st & Hbfs & -> & -> & _).
  intros [= ->].
  destruct (product_bfs_witness_bound _ _ _ _ _ w Hbfs eq_refl)
    as (sx & -> & Hsx & Hlen).
  rewrite length_concat_single.
  - eapply Nat.lt_le_trans; [done|].
    apply Nat.mul_le_mono; apply subseteq_size, range_states;
      (apply prepared_valid; [done|set_solver]).
  - rewrite Forall_forall in Hs, Hsx. apply Forall_forall. auto.
Qed.

Lemma witness_length_bound_witness :
  String.length "0" <
    size (states (are_equivalent ["0"; "1"] ends_in_one ends_in_one_bug).2.1) *
    size (states (are_equivalent ["0"; "1"] ends_in_one ends_in_one_bug).2.2).
Proof.
  apply (witness_length_bound ["0"; "1"] ends_in_one ends_in_one_bug "0");
    by_evaluation.
Defined.

(** ** Writing a transition line and reading it back *)

Section lines.
Implicit Types (s x l r q ch d : string) (c : Ascii.ascii).

Abbreviation chars := String.list_ascii_of_string.
Abbreviation no_comma := (Forall (fun c => c ≠ ","%char)).




Lemma lstrip_chars (P : Ascii.ascii → Prop) x :
  Forall P (chars x) → Forall P (chars (lstrip x)).
Proof.
  induction x as [|c x IH]; simpl; [done|]. intros H.
  destruct (is_space c); [|done]. apply IH. by inversion H.
Qed.

Lemma rstrip_chars (P : Ascii.ascii → Prop) x :
  Forall P (chars x) → Forall P (chars (rstrip x)).
Proof.
  induction x as [|c x IH]; simpl; [done|]. intros H.
  inversion H as [|? ? Hc Hx]; subst. specialize (IH Hx).
  destruct (rstrip x).
  - destruct (is_space c); simpl; by repeat constructor.
  - simpl. by constructor.
Qed.

Lemma lstrip_head x :
  lstrip x = "" ∨ ∃ c r, lstrip x = String c r ∧ is_space c = false.
Proof.
  induction x as [|c x IH]; simpl; [by left|].
  destruct (is_space c) eqn:Hc; [done|]. right. eauto.
Qed.

Lemma rstrip_idemp x : rstrip (rstrip x) = rstrip x.
Proof.
  induction x as [|c x IH]; simpl; [done|].
  destruct (rstrip x) as [|c' r'] eqn:Hr.
  - destruct (is_space c) eqn:Hc; simpl; [done|]. by rewrite Hc.
  - cbn [rstrip]. cbn [rstrip] in IH. by rewrite IH.
Qed.

Lemma strip_idemp x : strip (strip x) = strip x.
Proof.
  unfold strip. destruct (lstrip_head x) as [->|(c & r & -> & Hc)]; [done|].
  assert (lstrip (rstrip (String c r)) = rstrip (String c r)) as ->.
  { simpl. destruct (rstrip r); rewrite ?Hc; simpl; by rewrite Hc. }
  apply rstrip_idemp.
Qed.

Lemma split_comma_chars s p : p ∈ split_comma s → no_comma (chars p).
Proof.
  revert p. induction s as [|c s IH]; intros p; simpl.
  - intros ->%list_elem_of_singleton. constructor.
  - destruct (Ascii.eqb c ",") eqn:Hc.
    + intros [->|Hp]%elem_of_cons; [constructor|auto].
    + apply Ascii.eqb_neq in Hc. destruct (split_comma s) as [|p0 ps]; simpl.
      * intros ->%list_elem_of_singleton. by repeat constructor.
      * intros [->|Hp]%elem_of_cons.
        -- simpl. constructor; [done|]. apply IH. by left.
        -- apply IH. by right.
Qed.

(** The labels read from a field are stripped and hold no comma. *)
Lemma fields_clean s a :
  a ∈ fields s → strip a = a ∧ no_comma (chars a).
Proof.
  unfold fields. rewrite elem_of_list_to_set, list_elem_of_filter.
  intros [_ (x & -> & Hx)%list_elem_of_fmap]. split; [apply strip_idemp|].
  unfold strip. by apply rstrip_chars, lstrip_chars, (split_comma_chars s).
Qed.








End lines.



(** X22.  The labels of an automaton read by [parse_dfa] are normalised:
    no state, symbol or accepting state has white space at either end or
    contains a comma. *)
Theorem parse_dfa_labels_clean data nm d a :
  parse_dfa data nm = inr d →
  a ∈ states d ∪ alphabet d ∪ accept_states d →
  strip a = a ∧
  Forall (fun c => c ≠ ","%char) (String.list_ascii_of_string a).
Proof.
  intros (t & -> & V)%parse_dfa_inr.
  rewrite alphabet_complete, accept_complete. simpl. intros Ha.
  assert (a = sink ∨ a ∈ fields (strip (p_states data)) ∨
          a ∈ fields (strip (p_alphabet data)) ∨
          a ∈ fields (strip (p_accept data))) as [->|[H|[H|H] ] ].
  { revert Ha. unfold complete_with_sink.
    destruct (is_complete _); simpl; [set_solver|].
    case_decide; set_solver. }
  - split; [done|]. unfold sink. simpl. repeat constructor; done.
  - by eapply fields_clean.
  - by eapply fields_clean.
  - by eapply fields_clean.
Qed.

Lemma parse_dfa_labels_clean_witness :
  ∃ d, parse_dfa untidy_panel "AFD 1" = inr d ∧
       strip "q1" = "q1" ∧
       Forall (fun c => c ≠ ","%char) (String.list_ascii_of_string "q1").
Proof.
  destruct (parse_dfa untidy_panel "AFD 1") as [e|d] eqn:Hp.
  - exfalso. revert Hp. by vm_compute.
  - exists d. split; [done|].
    apply (parse_dfa_labels_clean untidy_panel "AFD 1" d "q1" Hp).
    revert Hp. intros (t & -> & _)%parse_dfa_inr.
    rewrite alphabet_complete, accept_complete. simpl.
    apply elem_of_union_r. by_evaluation.
Defined.
